(** * Line-delimited JSON client and the network watcher services

    A shallow embedding of the JavaScript sources

    - [networking/lib/ldj-client.js] and [networking/net-watcher-ldj-client.js]
      (both listed in src/networking/version8-test4),
    - [networking/net-watcher-json-test-service.js],
    - the file watcher service (src/unnamed/part_000),

    followed by the properties of the buffering decoder, of the client's
    message handler and of the per-connection resources of the services. *)

From Equations Require Import Equations.
From Stdlib Require Import String Ascii.
From Stdlib Require Import List ZArith NArith Bool Lia.
Import ListNotations.

Open Scope Z_scope.

(** ** JavaScript strings

    A JavaScript string is a sequence of 16-bit code units.  The handler of
    the stream's 'data' event only ever uses its argument through
    [buffer += data]: [ingest] below takes the string this concatenation
    appends.  For a stream that delivers Buffers, as the client's socket
    does, that string is the UTF-8 decoding of the one chunk ([UTF8.decode],
    [on_data]). *)

Definition code_unit := N.
Definition jsstring := list code_unit.

(** The line feed, ['\n']. *)
Definition LF : code_unit := 10%N.

(** String literals, for ASCII text.  JSON text is full of quotation marks,
    so a literal is written with an apostrophe wherever the JavaScript text
    has a quotation mark: [js "{'a':1}"] is the text [{"a":1}]. *)
Definition js_unit (c : ascii) : code_unit :=
  let n := N_of_ascii c in if N.eqb n 39 then 34%N else n.

Definition js (s : string) : jsstring := map js_unit (list_ascii_of_string s).

(** [s.length] *)
Definition jslength (s : jsstring) : Z := Z.of_nat (length s).

(** [s.indexOf(c)] for a search string [c] of one code unit: the index of
    its first occurrence, or -1. *)
Fixpoint indexOf_from (s : jsstring) (c : code_unit) (i : Z) : Z :=
  match s with
  | [] => -1
  | x :: s' => if N.eqb x c then i else indexOf_from s' c (i + 1)
  end.

Definition indexOf (s : jsstring) (c : code_unit) : Z := indexOf_from s c 0.

(** [s.substring(start, end)]: both indices are clamped to [0, s.length]
    and swapped when [start > end]. *)
Definition clamp (s : jsstring) (i : Z) : Z := Z.min (Z.max i 0) (jslength s).

Definition substring (s : jsstring) (start end_ : Z) : jsstring :=
  let a := clamp s start in
  let b := clamp s end_ in
  let lo := Z.min a b in
  let hi := Z.max a b in
  firstn (Z.to_nat (hi - lo)) (skipn (Z.to_nat lo) s).

(** [s.substring(start)] *)
Definition substring_from (s : jsstring) (start : Z) : jsstring :=
  substring s start (jslength s).

Lemma indexOf_from_bounds (s : jsstring) (c : code_unit) (i : Z) :
  indexOf_from s c i = -1 \/ i <= indexOf_from s c i < i + jslength s.
Proof.
  revert i; induction s as [|x s IH]; intros i; simpl; [now left|].
  destruct (N.eqb x c).
  - right. unfold jslength. simpl length. lia.
  - destruct (IH (i + 1)) as [E|E]; [now left|right].
    unfold jslength in *. simpl length. lia.
Qed.

Lemma substring_from_length (s : jsstring) (b : Z) :
  0 <= b < jslength s ->
  (length (substring_from s (b + 1)) < length s)%nat.
Proof.
  intros Hb. unfold substring_from, substring, clamp, jslength in *.
  rewrite length_firstn, length_skipn. lia.
Qed.

Definition inspect {A : Type} (a : A) : {b : A | a = b} := exist _ a eq_refl.

(** ** Buffers and UTF-8

    The client's socket has no [setEncoding] (net-watcher-ldj-client.js,
    line 135), so each 'data' event carries a Buffer, and [buffer += data]
    converts it with [Buffer.prototype.toString], which decodes the bytes of
    this one chunk as UTF-8.  The services pass strings to
    [connection.write], which sends their UTF-8 encoding. *)

(** A byte is a number below 256. *)
Definition byte := N.
Definition bytes := list byte.

Module UTF8.

Open Scope N_scope.

(** U+FFFD, the replacement character. *)
Definition replacement : code_unit := 65533.

Definition between (lo b hi : N) : bool := (lo <=? b) && (b <=? hi).

(** A continuation byte, 10xxxxxx. *)
Definition is_continuation (b : byte) : bool := between 128 b 191.

(** The code units of a code point above U+FFFF: its surrogate pair. *)
Definition surrogates (cp : N) : jsstring :=
  [55296 + (cp - 65536) / 1024; 56320 + (cp - 65536) mod 1024].

(** The range of the byte that may follow the lead byte of a three-byte
    sequence: E0 excludes the overlong forms, ED the surrogates. *)
Definition second_of_three (lead : byte) : N * N :=
  if lead =? 224 then (160, 191)
  else if lead =? 237 then (128, 159)
  else (128, 191).

(** The same for a four-byte sequence: F0 excludes the overlong forms, F4
    the code points above U+10FFFF. *)
Definition second_of_four (lead : byte) : N * N :=
  if lead =? 240 then (144, 191)
  else if lead =? 244 then (128, 143)
  else (128, 191).

(** [buf.toString()], that is [buf.toString('utf8')]: the decoding of the
    bytes of one Buffer.  A byte that cannot begin or continue a sequence
    ends the sequence before it; every ill-formed or unfinished sequence,
    also one cut off by the end of the Buffer, becomes one U+FFFD, and
    decoding goes on with the byte that ended it.  A number that is no byte
    is taken as a byte of that kind. *)
Fixpoint decode (b : bytes) : jsstring :=
  match b with
  | [] => []
  | b0 :: r0 =>
      if b0 <? 128 then b0 :: decode r0
      else if between 194 b0 223 then
        match r0 with
        | [] => [replacement]
        | b1 :: r1 =>
            if is_continuation b1
            then ((b0 - 192) * 64 + (b1 - 128)) :: decode r1
            else replacement :: decode r0
        end
      else if between 224 b0 239 then
        match r0 with
        | [] => [replacement]
        | b1 :: r1 =>
            if between (fst (second_of_three b0)) b1 (snd (second_of_three b0))
            then
              match r1 with
              | [] => [replacement]
              | b2 :: r2 =>
                  if is_continuation b2
                  then (((b0 - 224) * 64 + (b1 - 128)) * 64 + (b2 - 128))
                       :: decode r2
                  else replacement :: decode r1
              end
            else replacement :: decode r0
        end
      else if between 240 b0 244 then
        match r0 with
        | [] => [replacement]
        | b1 :: r1 =>
            if between (fst (second_of_four b0)) b1 (snd (second_of_four b0))
            then
              match r1 with
              | [] => [replacement]
              | b2 :: r2 =>
                  if is_continuation b2 then
                    match r2 with
                    | [] => [replacement]
                    | b3 :: r3 =>
                        if is_continuation b3
                        then surrogates
                               ((((b0 - 240) * 64 + (b1 - 128)) * 64
                                 + (b2 - 128)) * 64 + (b3 - 128))
                             ++ decode r3
                        else replacement :: decode r2
                    end
                  else replacement :: decode r1
              end
            else replacement :: decode r0
        end
      else replacement :: decode r0
  end.

Definition is_leading_surrogate (c : code_unit) : bool := between 55296 c 56319.

Definition is_trailing_surrogate (c : code_unit) : bool := between 56320 c 57343.

(** The bytes [connection.write(text)] sends for a string: its UTF-8
    encoding, a surrogate pair as the four bytes of its code point and a
    surrogate without its partner as the bytes of U+FFFD. *)
Fixpoint encode (s : jsstring) : bytes :=
  match s with
  | [] => []
  | c :: s' =>
      if c <? 128 then c :: encode s'
      else if c <? 2048 then (192 + c / 64) :: (128 + c mod 64) :: encode s'
      else if is_leading_surrogate c then
        match s' with
        | d :: s'' =>
            if is_trailing_surrogate d then
              let cp := 65536 + (c - 55296) * 1024 + (d - 56320) in
              (240 + cp / 262144) :: (128 + (cp / 4096) mod 64)
              :: (128 + (cp / 64) mod 64) :: (128 + cp mod 64) :: encode s''
            else 239 :: 191 :: 189 :: encode s'
        | [] => [239; 191; 189]
        end
      else if is_trailing_surrogate c then 239 :: 191 :: 189 :: encode s'
      else (224 + c / 4096) :: (128 + (c / 64) mod 64) :: (128 + c mod 64)
           :: encode s'
  end.

(** A string whose surrogates come in pairs: the text of whole
    characters. *)
Fixpoint well_formed (s : jsstring) : bool :=
  match s with
  | [] => true
  | c :: s' =>
      if is_leading_surrogate c then
        match s' with
        | d :: s'' => is_trailing_surrogate d && well_formed s''
        | [] => false
        end
      else negb (is_trailing_surrogate c) && (c <? 65536) && well_formed s'
  end.

End UTF8.

(** ** Values, exceptions and completions *)

(** The values [JSON.parse] can produce, and [undefined] for a missing
    property.  [VNum n] is the Number with the integer value [n]; it is used
    for integer literals of magnitude at most 2^53, which a double holds
    exactly.  Every other numeric literal is kept as [VNumLit] with its
    lexeme, its double being left uninterpreted.  An object is the list of
    its own properties in creation order. *)
#[local] Set Warnings "-register-all".
Inductive value : Type :=
| VUndefined
| VNull
| VBool (b : bool)
| VNum (n : Z)
| VNumLit (lexeme : jsstring)
| VStr (s : jsstring)
| VArr (elems : list value)
| VObj (props : list (jsstring * value)).

(** The exceptions of the program: the [SyntaxError] of [JSON.parse]; the
    [TypeError] of a property read on [null] or [undefined] and of the
    conversion to a primitive of an object that has none; the [RangeError]
    of an exhausted call stack; and an [Error] built from a template literal
    [`text${v}`], kept as the text and the interpolated value. *)
Inductive exn : Type :=
| SyntaxError
| TypeError
| RangeError
| Error (text : jsstring) (interpolated : value).

Inductive completion (A : Type) : Type :=
| Return (a : A)
| Throw (e : exn).
Arguments Return {A} a.
Arguments Throw {A} e.

Definition Normal : completion unit := Return tt.

(** ** LDJClient: the handler of the stream's 'data' event

    networking/lib/ldj-client.js, the constructor.  [JSON_parse] stands for
    the builtin [JSON.parse]; [on_message] for the listeners registered for
    the 'message' event, acting on a state [W] of their own.  [this.emit]
    calls the listeners synchronously, and an exception of a listener
    propagates through [emit]. *)
Section LDJClient.

Context {W : Type}.
Variable JSON_parse : jsstring -> completion value.
Variable on_message : value -> W -> W * completion unit.

(** What one run of the handler leaves behind: the closure variable
    [buffer], the listeners' state, the values passed to
    [this.emit('message', _)] in order, and how the handler completed. *)
Record outcome : Type := mkOutcome {
  buffer_after : jsstring;
  world_after : W;
  emitted : list value;
  result : completion unit
}.

Definition emit_first (v : value) (o : outcome) : outcome :=
  mkOutcome (buffer_after o) (world_after o) (v :: emitted o) (result o).

(** The [while (boundary !== -1)] loop on the closure variable [buffer].
    The source computes [boundary] before the loop and again at the end of
    each iteration; here it is computed at the head of each iteration.
    [JSON.parse] runs after [buffer] was cut, so the frame is gone from the
    buffer when it throws; an exception of [JSON.parse] or of a listener
    leaves the loop and the handler. *)
Equations? while_loop (buffer : jsstring) (w : W) : outcome
  by wf (length buffer) lt :=
while_loop buffer w with inspect (indexOf buffer LF) := {
  | exist _ boundary Hb with inspect (Z.eqb boundary (-1)) := {
    | exist _ true _ := mkOutcome buffer w [] Normal
    | exist _ false Hne :=
        let input := substring buffer 0 boundary in
        let buffer' := substring_from buffer (boundary + 1) in
        match JSON_parse input with
        | Throw e => mkOutcome buffer' w [] (Throw e)
        | Return v =>
            match on_message v w with
            | (w', Throw e) => mkOutcome buffer' w' [v] (Throw e)
            | (w', Return _) => emit_first v (while_loop buffer' w')
            end
        end
    }
  }.
Proof.
  apply substring_from_length.
  destruct (indexOf_from_bounds buffer LF 0) as [E|E]; unfold indexOf in *; lia.
Qed.

(** The handler of 'data': [buffer += data], then the loop.  [data] is the
    string the concatenation appends: the chunk itself on a stream that
    delivers strings, the chunk converted to a string otherwise. *)
Definition ingest (buffer : jsstring) (w : W) (data : jsstring) : outcome :=
  let buffer := buffer ++ data in
  while_loop buffer w.

(** The handler of 'data' on a stream that delivers Buffers: the
    concatenation converts the Buffer to a string, decoding the bytes of
    this chunk on their own. *)
Definition on_data (buffer : jsstring) (w : W) (data : bytes) : outcome :=
  ingest buffer w (UTF8.decode data).

(** The 'data' events of a stream that delivers strings, in order, from the
    handler's state [buffer], [w].  Nothing in the sources catches an
    exception of the handler: it is uncaught and ends the run. *)
Fixpoint feed (chunks : list jsstring) (buffer : jsstring) (w : W) : outcome :=
  match chunks with
  | [] => mkOutcome buffer w [] Normal
  | data :: chunks' =>
      let o := ingest buffer w data in
      match result o with
      | Throw _ => o
      | Return _ =>
          let o' := feed chunks' (buffer_after o) (world_after o) in
          mkOutcome (buffer_after o') (world_after o')
                    (emitted o ++ emitted o') (result o')
      end
  end.

(** The 'data' events of a stream that delivers Buffers: each chunk is
    converted when its event is handled, so the handler sees the decodings
    of the chunks, not the decoding of the stream. *)
Definition receive (chunks : list bytes) (buffer : jsstring) (w : W)
  : outcome :=
  feed (map UTF8.decode chunks) buffer w.

(** The listeners' state after they took the messages [values] in order. *)
Definition handled (values : list value) (w : W) : W :=
  fold_left (fun w v => fst (on_message v w)) values w.

(** A payload decodes to a value. *)
Definition decodes (p : jsstring) (v : value) : Prop :=
  JSON_parse p = Return v.

(** The listeners take a message without throwing, whatever their state. *)
Definition accepted (v : value) : Prop :=
  forall w, snd (on_message v w) = Normal.

End LDJClient.

Arguments mkOutcome {W} _ _ _ _.
Arguments buffer_after {W} _.
Arguments world_after {W} _.
Arguments emitted {W} _.
Arguments result {W} _.

(** [LDJClient.connect(stream)] is [new LDJClient(stream)]: the closure
    variable [buffer] starts as the empty string. *)
Definition initial_buffer : jsstring := [].

(** A frame as the services write it, [JSON.stringify(...) + '\n']
    (part_000, lines 14-17 and 25-29). *)
Definition frame (payload : jsstring) : jsstring := payload ++ [LF].

Definition frames (payloads : list jsstring) : jsstring :=
  concat (map frame payloads).

(** ** The builtin [JSON.parse]

    A model of [JSON.parse(text)] for a string [text], after the JSON
    grammar (ECMA-404) as ECMA-262 applies it: white space is tab, line
    feed, carriage return and space; a text that is not exactly one JSON
    value throws a [SyntaxError]. *)
Module JSON.

Open Scope N_scope.

Inductive parsed (A : Type) : Type :=
| Parsed (a : A) (rest : jsstring)
| Malformed
| OutOfFuel.
Arguments Parsed {A} a rest.
Arguments Malformed {A}.
Arguments OutOfFuel {A}.

Definition is_ws (c : code_unit) : bool :=
  (c =? 32) || (c =? 9) || (c =? 10) || (c =? 13).

Fixpoint skip_ws (s : jsstring) : jsstring :=
  match s with
  | c :: s' => if is_ws c then skip_ws s' else s
  | [] => []
  end.

Definition is_digit (c : code_unit) : bool := (48 <=? c) && (c <=? 57).

Definition hex_digit (c : code_unit) : option N :=
  if is_digit c then Some (c - 48)
  else if (97 <=? c) && (c <=? 102) then Some (c - 87)
  else if (65 <=? c) && (c <=? 70) then Some (c - 55)
  else None.

Definition hex4 (a b c d : code_unit) : option code_unit :=
  match hex_digit a, hex_digit b, hex_digit c, hex_digit d with
  | Some x, Some y, Some z, Some t => Some (((x * 16 + y) * 16 + z) * 16 + t)
  | _, _, _, _ => None
  end.

(** The code unit of a one-letter escape: quotation mark, reverse solidus,
    solidus, b, f, n, r, t. *)
Definition escape (c : code_unit) : option code_unit :=
  if c =? 34 then Some 34
  else if c =? 92 then Some 92
  else if c =? 47 then Some 47
  else if c =? 98 then Some 8
  else if c =? 102 then Some 12
  else if c =? 110 then Some 10
  else if c =? 114 then Some 13
  else if c =? 116 then Some 9
  else None.

(** The characters of a string after its opening quotation mark, up to
    the closing one.  A control character below U+0020 is not allowed. *)
Fixpoint string_body (s : jsstring) : option (jsstring * jsstring) :=
  match s with
  | [] => None
  | c :: s1 =>
      if c =? 34 then Some ([], s1)
      else if c =? 92 then
        match s1 with
        | [] => None
        | e :: s2 =>
            if e =? 117 then
              match s2 with
              | h1 :: h2 :: h3 :: h4 :: s3 =>
                  match hex4 h1 h2 h3 h4, string_body s3 with
                  | Some u, Some (cs, r) => Some (u :: cs, r)
                  | _, _ => None
                  end
              | _ => None
              end
            else
              match escape e, string_body s2 with
              | Some u, Some (cs, r) => Some (u :: cs, r)
              | _, _ => None
              end
        end
      else if c <? 32 then None
      else
        match string_body s1 with
        | Some (cs, r) => Some (c :: cs, r)
        | None => None
        end
  end.

Fixpoint take_digits (s : jsstring) : jsstring * jsstring :=
  match s with
  | c :: s' =>
      if is_digit c then let (ds, r) := take_digits s' in (c :: ds, r)
      else ([], s)
  | [] => ([], [])
  end.

Definition digits_value (ds : jsstring) : Z :=
  fold_left (fun acc c => (acc * 10 + Z.of_N (c - 48))%Z) ds 0%Z.

(** The integer part: a single 0, or a digit from 1 to 9 and more digits. *)
Definition int_part (s : jsstring) : option (jsstring * jsstring) :=
  match s with
  | c :: s' =>
      if c =? 48 then Some ([c], s')
      else if is_digit c then Some (take_digits s)
      else None
  | [] => None
  end.

(** The optional fraction, a point and at least one digit. *)
Definition frac_part (s : jsstring) : option (jsstring * jsstring) :=
  match s with
  | c :: s' =>
      if c =? 46 then
        match take_digits s' with
        | ([], _) => None
        | (ds, r) => Some (c :: ds, r)
        end
      else Some ([], s)
  | [] => Some ([], s)
  end.

(** The optional exponent: e or E, an optional sign, at least one digit. *)
Definition exp_part (s : jsstring) : option (jsstring * jsstring) :=
  match s with
  | c :: s' =>
      if (c =? 101) || (c =? 69) then
        let (sign, s'') :=
          match s' with
          | d :: t => if (d =? 43) || (d =? 45) then ([d], t) else ([], s')
          | [] => ([], s')
          end in
        match take_digits s'' with
        | ([], _) => None
        | (ds, r) => Some (c :: sign ++ ds, r)
        end
      else Some ([], s)
  | [] => Some ([], s)
  end.

Definition number (s : jsstring) : parsed value :=
  let (minus, s0) :=
    match s with
    | c :: t => if c =? 45 then (true, t) else (false, s)
    | [] => (false, s)
    end in
  match int_part s0 with
  | None => Malformed
  | Some (ds, s1) =>
      match frac_part s1 with
      | None => Malformed
      | Some (fs, s2) =>
          match exp_part s2 with
          | None => Malformed
          | Some (es, s3) =>
              let lexeme := (if minus then [45] else []) ++ ds ++ fs ++ es in
              let n := digits_value ds in
              match fs, es with
              | [], [] =>
                  if (minus && (n =? 0)%Z) || (2 ^ 53 <? n)%Z
                  then Parsed (VNumLit lexeme) s3
                  else Parsed (VNum (if minus then - n else n)%Z) s3
              | _, _ => Parsed (VNumLit lexeme) s3
              end
          end
      end
  end.

(** Whether [s] begins with the code unit [c]. *)
Definition starts_with (c : code_unit) (s : jsstring) : bool :=
  match s with
  | x :: _ => x =? c
  | [] => false
  end.

Fixpoint strip_prefix (p s : jsstring) : option jsstring :=
  match p, s with
  | [], _ => Some s
  | a :: p', b :: s' => if a =? b then strip_prefix p' s' else None
  | _ :: _, [] => None
  end.

(** Defining the property [k] of an object under construction: a name
    that is already there keeps its place and takes the new value. *)
Fixpoint define_property (props : list (jsstring * value))
         (k : jsstring) (v : value) : list (jsstring * value) :=
  match props with
  | [] => [(k, v)]
  | (k', v') :: props' =>
      if list_eq_dec N.eq_dec k' k then (k, v) :: props'
      else (k', v') :: define_property props' k v
  end.

Definition object_of (members : list (jsstring * value)) : value :=
  VObj (fold_left (fun props kv => define_property props (fst kv) (snd kv))
                  members []).

(** Values, the elements of an array after its bracket or a comma, and
    the members of an object after its brace or a comma.  Every call
    reads at least one code unit before it recurses, so a fuel above the
    length of the text is never used up. *)
Fixpoint value_ (fuel : nat) (s : jsstring) {struct fuel} : parsed value :=
  match fuel with
  | O => OutOfFuel
  | S fuel' =>
      match skip_ws s with
      | [] => Malformed
      | c :: r =>
          if c =? 34 then
            match string_body r with
            | Some (cs, r') => Parsed (VStr cs) r'
            | None => Malformed
            end
          else if c =? 91 then
            if starts_with 93 (skip_ws r) then Parsed (VArr []) (tl (skip_ws r))
            else
              match elements fuel' r with
              | Parsed vs r' => Parsed (VArr vs) r'
              | Malformed => Malformed
              | OutOfFuel => OutOfFuel
              end
          else if c =? 123 then
            if starts_with 125 (skip_ws r) then Parsed (VObj []) (tl (skip_ws r))
            else
              match members fuel' r with
              | Parsed kvs r' => Parsed (object_of kvs) r'
              | Malformed => Malformed
              | OutOfFuel => OutOfFuel
              end
          else if (c =? 45) || is_digit c then number (c :: r)
          else
            match strip_prefix (js "null") (c :: r) with
            | Some r' => Parsed VNull r'
            | None =>
                match strip_prefix (js "true") (c :: r) with
                | Some r' => Parsed (VBool true) r'
                | None =>
                    match strip_prefix (js "false") (c :: r) with
                    | Some r' => Parsed (VBool false) r'
                    | None => Malformed
                    end
                end
            end
      end
  end

with elements (fuel : nat) (s : jsstring) {struct fuel} : parsed (list value) :=
  match fuel with
  | O => OutOfFuel
  | S fuel' =>
      match value_ fuel' s with
      | Parsed v r =>
          match skip_ws r with
          | c :: r' =>
              if c =? 44 then
                match elements fuel' r' with
                | Parsed vs r'' => Parsed (v :: vs) r''
                | Malformed => Malformed
                | OutOfFuel => OutOfFuel
                end
              else if c =? 93 then Parsed [v] r'
              else Malformed
          | [] => Malformed
          end
      | Malformed => Malformed
      | OutOfFuel => OutOfFuel
      end
  end

with members (fuel : nat) (s : jsstring) {struct fuel}
  : parsed (list (jsstring * value)) :=
  match fuel with
  | O => OutOfFuel
  | S fuel' =>
      if starts_with 34 (skip_ws s) then
        match string_body (tl (skip_ws s)) with
        | Some (k, r1) =>
            if starts_with 58 (skip_ws r1) then
              match value_ fuel' (tl (skip_ws r1)) with
              | Parsed v r3 =>
                  match skip_ws r3 with
                  | c :: r4 =>
                      if c =? 44 then
                        match members fuel' r4 with
                        | Parsed kvs r5 => Parsed ((k, v) :: kvs) r5
                        | Malformed => Malformed
                        | OutOfFuel => OutOfFuel
                        end
                      else if c =? 125 then Parsed [(k, v)] r4
                      else Malformed
                  | [] => Malformed
                  end
              | Malformed => Malformed
              | OutOfFuel => OutOfFuel
              end
            else Malformed
        | None => Malformed
        end
      else Malformed
  end.

(** [JSON.parse(text)] *)
Definition parse (text : jsstring) : completion value :=
  match value_ (2 * length text + 2) text with
  | Parsed v r =>
      match skip_ws r with
      | [] => Return v
      | _ :: _ => Throw SyntaxError
      end
  | Malformed => Throw SyntaxError
  | OutOfFuel => Throw SyntaxError
  end.

End JSON.

(** ** The client: networking/net-watcher-ldj-client.js *)
Module Client.

(** The [${...}] of a template literal: a value converted to a string,
    or a [new Date(v)] converted to a string. *)
Inductive interpolation : Type :=
| OfValue (v : value)
| OfNewDate (v : value).

(** A line printed by [console.log(`text${...}`)]. *)
Inductive console_line : Type :=
| Log (text : jsstring) (arg : interpolation).

Definition console := list console_line.

(** [v.P], for the property names the handler reads ([type], [file],
    [timestamp]): reading a property of [null] or [undefined] throws a
    [TypeError]; an object answers with its own property, and a name found
    nowhere is [undefined], as none of these names is on a prototype. *)
Fixpoint own_property (props : list (jsstring * value)) (P : jsstring) : value :=
  match props with
  | [] => VUndefined
  | (k, v) :: props' =>
      if list_eq_dec N.eq_dec k P then v else own_property props' P
  end.

Definition Get (v : value) (P : jsstring) : completion value :=
  match v with
  | VUndefined | VNull => Throw TypeError
  | VObj props => Return (own_property props P)
  | _ => Return VUndefined
  end.

(** [v === 'text'] *)
Definition strict_equals (v : value) (text : jsstring) : bool :=
  match v with
  | VStr s => if list_eq_dec N.eq_dec s text then true else false
  | _ => false
  end.

Definition has_own_property (props : list (jsstring * value)) (P : jsstring)
  : bool :=
  existsb (fun kv => if list_eq_dec N.eq_dec (fst kv) P then true else false)
          props.

(** The values that are no objects: [undefined], [null], the Booleans,
    numbers and strings. *)
Definition primitive (v : value) : Prop :=
  match v with
  | VArr _ | VObj _ => False
  | _ => True
  end.

Section Listener.

(** The number of nested calls of [Array.prototype.toString] the call stack
    has room for where the listener runs.  It depends on the engine and on
    its settings; beyond it the engine throws a [RangeError]. *)
Variable stack : nat.

(** How the conversion of a value to a string completes, the [${v}] of a
    template literal.  The string itself is left in the [interpolation].

    - A primitive is always converted.
    - An object is converted by its [toString] method.  The objects here
      are made by [JSON.parse]: a property of their own named [toString]
      hides the method of [Object.prototype] and is no function, the
      inherited [valueOf] returns the object itself, so no primitive is
      found and the conversion throws a [TypeError].  Without such a
      property the text is that of [Object.prototype.toString].
    - An array is converted by [Array.prototype.toString], which joins the
      conversions of its elements, from left to right, [null] and
      [undefined] giving the empty string.  This is one more call on the
      stack for each level of nesting. *)
Fixpoint ToString (room : nat) (v : value) {struct v} : completion unit :=
  match v with
  | VObj props =>
      if has_own_property props (js "toString") then Throw TypeError
      else Normal
  | VArr elems =>
      match room with
      | O => Throw RangeError
      | S room' =>
          (fix join (l : list value) : completion unit :=
             match l with
             | [] => Normal
             | VUndefined :: l' => join l'
             | VNull :: l' => join l'
             | e :: l' =>
                 match ToString room' e with
                 | Throw x => Throw x
                 | Return _ => join l'
                 end
             end) elems
      end
  | _ => Normal
  end.

(** How [new Date(v)] completes.  The constructor converts an object to a
    primitive, trying [valueOf] before [toString]: the inherited [valueOf]
    returns the object itself, so this comes down to [toString] as above.
    A primitive gives a Date, valid or not, and the Date is always
    converted to a string. *)
Definition new_Date (v : value) : completion unit := ToString stack v.

(** The listener of [ldjClient.on('message', ...)], lines 138-146.  The
    template literal is evaluated before [console.log] or [Error] is
    called, so a conversion that throws leaves nothing printed. *)
Definition on_message (message : value) (out : console)
  : console * completion unit :=
  match Get message (js "type") with
  | Throw e => (out, Throw e)
  | Return type =>
      if strict_equals type (js "watching") then
        match Get message (js "file") with
        | Throw e => (out, Throw e)
        | Return file =>
            match ToString stack file with
            | Throw e => (out, Throw e)
            | Return _ =>
                (out ++ [Log (js "Now watching: ") (OfValue file)], Normal)
            end
        end
      else if strict_equals type (js "changed") then
        match Get message (js "timestamp") with
        | Throw e => (out, Throw e)
        | Return timestamp =>
            match new_Date timestamp with
            | Throw e => (out, Throw e)
            | Return _ =>
                (out ++ [Log (js "File changed: ") (OfNewDate timestamp)],
                 Normal)
            end
        end
      else
        match ToString stack type with
        | Throw e => (out, Throw e)
        | Return _ =>
            (out, Throw (Error (js "Unrecognized message type: ") type))
        end
  end.

(** The 'data' handler of [ldjClient], the [LDJClient] connected to
    [netClient], with this listener: on the string a chunk appends, and on
    the Buffers the socket delivers. *)
Definition ingest : jsstring -> console -> jsstring -> outcome :=
  ingest JSON.parse on_message.

Definition feed : list jsstring -> jsstring -> console -> outcome :=
  feed JSON.parse on_message.

Definition on_data : jsstring -> console -> bytes -> outcome :=
  on_data JSON.parse on_message.

Definition receive : list bytes -> jsstring -> console -> outcome :=
  receive JSON.parse on_message.

End Listener.

End Client.

(** ** The test service: networking/net-watcher-json-test-service.js

    The file holds the service twice, lines 1-26 and its replacement, lines
    30-56; they differ in the two chunks, the delay and the port. *)
Module TestService.

Inductive timeout : Type :=
| Pending    (* set by [setTimeout], not yet run *)
| Fired      (* the callback has run *)
| Cleared.   (* [clearTimeout] came first *)

Inductive log_line : Type :=
| SubscriberConnected
| SubscriberDisconnected.

(** One connection: what was written to it, whether [connection.end()]
    was called, the timer of the second chunk, and the console. *)
Record session : Type := mkSession {
  written : list jsstring;
  ended : bool;
  timer : timeout;
  log : list log_line
}.

(** The events a session has a listener for: the timer running out, and
    the 'end' event of the connection (the peer closed its side).  The
    'error' event of the connection, for which the service has no listener,
    is a [signal] of the process, below. *)
Inductive event : Type :=
| TimerExpires
| End.

Section Service.

Variables firstChunk secondChunk : jsstring.

(** The connection listener: log, write the first chunk, set the
    timer. *)
Definition on_connection : session :=
  mkSession [firstChunk] false Pending [SubscriberConnected].

(** The callback of [setTimeout]. *)
Definition on_timeout (s : session) : session :=
  mkSession (written s ++ [secondChunk]) true Fired (log s).

(** [clearTimeout(timer)]: a pending timer is cancelled; after the
    callback has run there is nothing to cancel. *)
Definition clearTimeout (t : timeout) : timeout :=
  match t with
  | Pending => Cleared
  | Fired => Fired
  | Cleared => Cleared
  end.

(** The listener of [connection.on('end', ...)]. *)
Definition on_end (s : session) : session :=
  mkSession (written s) (ended s) (clearTimeout (timer s))
            (log s ++ [SubscriberDisconnected]).

(** A timer runs its callback only while it is pending. *)
Definition step (s : session) (e : event) : session :=
  match e with
  | TimerExpires =>
      match timer s with
      | Pending => on_timeout s
      | _ => s
      end
  | End => on_end s
  end.

Definition run (events : list event) : session :=
  fold_left step events on_connection.

End Service.

(** Lines 10 and 14. *)
Definition firstChunk : jsstring := js "{'type':'changed','file':'targ".
Definition secondChunk : jsstring :=
  js "et.txt','timestamp':'1358175758495}'" ++ [LF].

(** Lines 35 and 36, the replacement. *)
Definition firstChunk' : jsstring := js "{'type':'changed','timesta".
Definition secondChunk' : jsstring := js "mp':1450694370094}" ++ [LF].

End TestService.

(** ** The watcher service: src/unnamed/part_000 *)
Module WatcherService.

Inductive fs_watcher : Type :=
| Watching
| Closed.

Inductive log_line : Type :=
| SubscriberConnected
| SubscriberDisconnected.

Record session : Type := mkSession {
  written : list jsstring;
  watcher : fs_watcher;
  log : list log_line
}.

(** The events a session has a listener for: the watcher reporting a
    change, at the time [Date.now()] shows, and the 'close' event of the
    connection.  The 'error' event of the connection, for which the service
    has no listener, is a [signal] of the process, below. *)
Inductive event : Type :=
| Change (now : Z)
| Close.

Section Service.

Variable JSON_stringify : value -> jsstring.
Variable filename : jsstring.

(** The connection listener: log, write the 'watching' frame, start
    the watcher. *)
Definition on_connection : session :=
  mkSession
    [JSON_stringify (VObj [(js "type", VStr (js "watching"));
                           (js "file", VStr filename)]) ++ [LF]]
    Watching
    [SubscriberConnected].

(** The listener of [fs.watch]. *)
Definition on_change (now : Z) (s : session) : session :=
  mkSession
    (written s ++
     [JSON_stringify (VObj [(js "type", VStr (js "changed"));
                            (js "file", VStr filename);
                            (js "timestamp", VNum now)]) ++ [LF]])
    (watcher s)
    (log s).

(** The listener of [connection.on('close', ...)]: log,
    [watcher.close()]. *)
Definition on_close (s : session) : session :=
  mkSession (written s) Closed (log s ++ [SubscriberDisconnected]).

(** A closed watcher reports nothing. *)
Definition step (s : session) (e : event) : session :=
  match e with
  | Change now =>
      match watcher s with
      | Watching => on_change now s
      | Closed => s
      end
  | Close => on_close s
  end.

Definition run (events : list event) : session :=
  fold_left step events on_connection.

End Service.

End WatcherService.

(** ** The 'error' event of a connection

    Neither service registers a listener for the 'error' event of its
    connections.  When a socket emits 'error', as it does when the peer
    resets the connection, the EventEmitter throws the error; nothing
    catches it, and the process of the service ends there.  No listener
    runs any more: neither the one of 'close' or 'end' of this connection
    nor any other. *)
Inductive signal (E : Type) : Type :=
| Dispatched (e : E)   (* an event that has a listener *)
| SocketError.         (* 'error', which has none *)
Arguments Dispatched {E} e.
Arguments SocketError {E}.

(** The process of a service, seen from one session: running, or ended by
    the uncaught error, with the session as the error found it. *)
Inductive process (S : Type) : Type :=
| Running (s : S)
| Terminated (s : S).
Arguments Running {S} s.
Arguments Terminated {S} s.

Section Process.

Context {E S : Type}.
Variable step : S -> E -> S.

Definition deliver (p : process S) (x : signal E) : process S :=
  match p with
  | Running s =>
      match x with
      | Dispatched e => Running (step s e)
      | SocketError => Terminated s
      end
  | Terminated s => Terminated s
  end.

Definition lifetime (s : S) (signals : list (signal E)) : process S :=
  fold_left deliver signals (Running s).

(** The session of a process, as its listeners last left it. *)
Definition session_of (p : process S) : S :=
  match p with
  | Running s => s
  | Terminated s => s
  end.

End Process.

(** A session of the watcher service and of the test service, from the
    connection on. *)
Definition watcher_process (JSON_stringify : value -> jsstring)
           (filename : jsstring)
           (signals : list (signal WatcherService.event))
  : process WatcherService.session :=
  lifetime (WatcherService.step JSON_stringify filename)
           (WatcherService.on_connection JSON_stringify filename) signals.

Definition test_process (firstChunk secondChunk : jsstring)
           (signals : list (signal TestService.event))
  : process TestService.session :=
  lifetime (TestService.step secondChunk)
           (TestService.on_connection firstChunk) signals.

(** ** The messages of the watcher service

    The object literals of part_000, lines 14-17 and 25-29. *)
Definition watching_message (filename : jsstring) : value :=
  VObj [(js "type", VStr (js "watching")); (js "file", VStr filename)].

Definition changed_message (filename : jsstring) (now : Z) : value :=
  VObj [(js "type", VStr (js "changed"));
        (js "file", VStr filename);
        (js "timestamp", VNum now)].

(** The times of the changes a session's watcher reported before the first
    'close' of its connection. *)
Fixpoint changes_before_close (events : list WatcherService.event) : list Z :=
  match events with
  | [] => []
  | WatcherService.Change now :: events' => now :: changes_before_close events'
  | WatcherService.Close :: _ => []
  end.

(** ** The builtin [JSON.stringify]

    A model of [JSON.stringify(value)] after ECMA-262 (SerializeJSONProperty,
    QuoteJSONString), for the values of this development.  The result is a
    text, or [undefined] ([NoText]) for the value [undefined].  Two kinds of
    value are left [Uninterpreted]: a number that is not an integer of
    magnitude at most 2^53, whose text is that of a double, and an object
    with a property whose name is an array index, which is enumerated before
    the other properties whatever the order of creation. *)
Module Serialize.

Open Scope N_scope.

Inductive serialized : Type :=
| Text (s : jsstring)
| NoText
| Uninterpreted.

(** A hexadecimal digit, in lower case. *)
Definition hex_char (d : N) : code_unit := if d <? 10 then 48 + d else 87 + d.

(** The escape [\uXXXX] of a code unit. *)
Definition unicode_escape (c : code_unit) : jsstring :=
  [92; 117; hex_char (c / 4096); hex_char ((c / 256) mod 16);
   hex_char ((c / 16) mod 16); hex_char (c mod 16)].

Definition is_leading_surrogate (c : code_unit) : bool :=
  (55296 <=? c) && (c <=? 56319).

Definition is_trailing_surrogate (c : code_unit) : bool :=
  (56320 <=? c) && (c <=? 57343).

(** A code unit that is not half of a surrogate pair: backspace, tab, line
    feed, form feed, carriage return, quotation mark and reverse solidus
    have a two-character escape, the other control characters and a lone
    surrogate are written [\uXXXX], everything else stands for itself. *)
Definition quote_unit (c : code_unit) : jsstring :=
  if c =? 8 then [92; 98]
  else if c =? 9 then [92; 116]
  else if c =? 10 then [92; 110]
  else if c =? 12 then [92; 102]
  else if c =? 13 then [92; 114]
  else if c =? 34 then [92; 34]
  else if c =? 92 then [92; 92]
  else if (c <? 32) || is_leading_surrogate c || is_trailing_surrogate c
  then unicode_escape c
  else [c].

Fixpoint quote_units (s : jsstring) : jsstring :=
  match s with
  | [] => []
  | c :: s' =>
      if is_leading_surrogate c then
        match s' with
        | d :: s'' =>
            if is_trailing_surrogate d then c :: d :: quote_units s''
            else quote_unit c ++ quote_units s'
        | [] => quote_unit c
        end
      else quote_unit c ++ quote_units s'
  end.

(** QuoteJSONString *)
Definition quote (s : jsstring) : jsstring := 34 :: quote_units s ++ [34].

(** The decimal digits of a natural number, the last one first.  A number
    has no more decimal digits than binary ones, which bounds the fuel. *)
Fixpoint decimal_reversed (fuel : nat) (n : N) : jsstring :=
  match fuel with
  | O => []
  | S fuel' =>
      if n <? 10 then [48 + n]
      else (48 + n mod 10) :: decimal_reversed fuel' (n / 10)
  end.

Definition decimal (n : N) : jsstring :=
  rev (decimal_reversed (S (N.to_nat (N.size n))) n).

(** The text of the Number with the integer value [n]. *)
Definition number (n : Z) : jsstring :=
  match n with
  | Z0 => [48]
  | Zpos p => decimal (Npos p)
  | Zneg p => 45 :: decimal (Npos p)
  end.

(** Whether a property name is an array index: the decimal text of an
    integer below 2^32 - 1. *)
Definition is_array_index (k : jsstring) : bool :=
  match k with
  | [] => false
  | _ :: _ =>
      forallb JSON.is_digit k &&
      (let n := Z.to_N (JSON.digits_value k) in
       (n <? 4294967295) && if list_eq_dec N.eq_dec (decimal n) k then true else false)
  end.

Fixpoint join (sep : jsstring) (parts : list jsstring) : jsstring :=
  match parts with
  | [] => []
  | [part] => part
  | part :: parts' => part ++ sep ++ join sep parts'
  end.

(** SerializeJSONProperty, SerializeJSONArray and SerializeJSONObject with
    no indentation.  [None] among the parts of an array or an object says
    that some part is uninterpreted. *)
Fixpoint stringify (v : value) : serialized :=
  match v with
  | VUndefined => NoText
  | VNull => Text (js "null")
  | VBool true => Text (js "true")
  | VBool false => Text (js "false")
  | VNum n =>
      if (Z.abs n <=? 2 ^ 53)%Z then Text (number n) else Uninterpreted
  | VNumLit _ => Uninterpreted
  | VStr s => Text (quote s)
  | VArr elems =>
      let fix elements (l : list value) : option (list jsstring) :=
        match l with
        | [] => Some []
        | e :: l' =>
            match stringify e, elements l' with
            | Text t, Some ts => Some (t :: ts)
            | NoText, Some ts => Some (js "null" :: ts)
            | _, _ => None
            end
        end in
      match elements elems with
      | Some ts => Text ([91] ++ join [44] ts ++ [93])
      | None => Uninterpreted
      end
  | VObj props =>
      let fix members (l : list (jsstring * value)) : option (list jsstring) :=
        match l with
        | [] => Some []
        | (k, e) :: l' =>
            if is_array_index k then None
            else
              match stringify e, members l' with
              | Text t, Some ts => Some ((quote k ++ [58] ++ t) :: ts)
              | NoText, Some ts => Some ts
              | _, _ => None
              end
        end in
      match members props with
      | Some ts => Text ([123] ++ join [44] ts ++ [125])
      | None => Uninterpreted
      end
  end.

End Serialize.

(** A message that [JSON.stringify] writes on one line from which
    [JSON.parse] reads it back. *)
Definition round_trips (m : value) : Prop :=
  exists text,
    Serialize.stringify m = Serialize.Text text /\
    ~ In LF text /\
    JSON.parse text = Return m.

(** The text [JSON.stringify(value)] is concatenated with, [undefined]
    being converted to a string; empty where the model has no text. *)
Definition stringify_text (v : value) : jsstring :=
  match Serialize.stringify v with
  | Serialize.Text t => t
  | Serialize.NoText => js "undefined"
  | Serialize.Uninterpreted => []
  end.

(** ** Notions used in the statements about the builtins *)

(** Reading one more character in front of what [string_body] reads. *)
Definition read_after (c : code_unit) (r : option (jsstring * jsstring))
  : option (jsstring * jsstring) :=
  match r with
  | Some (cs, rest) => Some (c :: cs, rest)
  | None => None
  end.

(** The value of digits given the last one first. *)
Definition reversed_value (l : jsstring) : Z :=
  fold_right (fun c acc => acc * 10 + Z.of_N (c - 48)) 0 l.

(** What may follow a number: not a digit, a point or an exponent. *)
Definition ends_number (c : code_unit) : Prop :=
  JSON.is_digit c = false /\ c <> 46%N /\ c <> 101%N /\ c <> 69%N.

(** * Properties *)

(** ** Strings *)

Lemma indexOf_from_absent (s : jsstring) (c : code_unit) (i : Z) :
  ~ In c s -> indexOf_from s c i = -1.
Proof.
  revert i; induction s as [|x s IH]; intros i Hin; simpl; [reflexivity|].
  destruct (N.eqb_spec x c) as [->|_].
  - exfalso; apply Hin; now left.
  - apply IH. intros H; apply Hin; now right.
Qed.

Lemma indexOf_from_first (p r : jsstring) (c : code_unit) (i : Z) :
  ~ In c p -> indexOf_from (p ++ c :: r) c i = i + jslength p.
Proof.
  revert i; induction p as [|x p IH]; intros i Hin; simpl.
  - rewrite N.eqb_refl. unfold jslength; simpl; lia.
  - destruct (N.eqb_spec x c) as [->|_].
    + exfalso; apply Hin; now left.
    + rewrite IH by (intros H; apply Hin; now right).
      unfold jslength; simpl length; lia.
Qed.

Lemma indexOf_from_found (s : jsstring) (c : code_unit) (i : Z) :
  0 <= i -> indexOf_from s c i = -1 -> ~ In c s.
Proof.
  revert i; induction s as [|x s IH]; intros i Hi; simpl; [tauto|].
  destruct (N.eqb_spec x c) as [->|Hne]; [lia|].
  intros H [E|Hin]; [congruence|].
  apply (IH (i + 1)); [lia|assumption|assumption].
Qed.

Lemma indexOf_absent (s : jsstring) (c : code_unit) :
  indexOf s c = -1 <-> ~ In c s.
Proof.
  split.
  - apply indexOf_from_found; lia.
  - apply indexOf_from_absent.
Qed.

Lemma first_occurrence (s : jsstring) (c : code_unit) :
  In c s -> exists p r, s = p ++ c :: r /\ ~ In c p.
Proof.
  induction s as [|x s IH]; [intros []|].
  destruct (N.eq_dec x c) as [->|Hne].
  - intros _. exists [], s. split; [reflexivity|tauto].
  - intros [E|Hin]; [congruence|].
    destruct (IH Hin) as (p & r & -> & Hp).
    exists (x :: p), r. split; [reflexivity|].
    intros [E|H]; [congruence|tauto].
Qed.

Lemma substring_in_range (s : jsstring) (a b : Z) :
  0 <= a <= b -> b <= jslength s ->
  substring s a b = firstn (Z.to_nat (b - a)) (skipn (Z.to_nat a) s).
Proof.
  intros Ha Hb. unfold substring.
  assert (Ea : clamp s a = a) by (unfold clamp; lia).
  assert (Eb : clamp s b = b) by (unfold clamp; lia).
  rewrite Ea, Eb. cbv zeta.
  rewrite Z.min_l, Z.max_r by lia. reflexivity.
Qed.

Lemma substring_payload (p r : jsstring) :
  substring (p ++ r) 0 (jslength p) = p.
Proof.
  rewrite substring_in_range;
    [|unfold jslength; lia|unfold jslength; rewrite length_app; lia].
  unfold jslength. rewrite Z.sub_0_r, Nat2Z.id. simpl.
  rewrite firstn_app, firstn_all, Nat.sub_diag. simpl.
  apply app_nil_r.
Qed.

Lemma substring_from_rest (p r : jsstring) (c : code_unit) :
  substring_from (p ++ c :: r) (jslength p + 1) = r.
Proof.
  unfold substring_from.
  rewrite substring_in_range;
    [|unfold jslength; rewrite ?length_app; simpl length; lia ..].
  unfold jslength. rewrite length_app. simpl length.
  replace (Z.to_nat (Z.of_nat (length p) + 1)) with (length (p ++ [c]))
    by (rewrite length_app; simpl; lia).
  replace (p ++ c :: r) with ((p ++ [c]) ++ r)
    by (rewrite <- app_assoc; reflexivity).
  rewrite skipn_app, skipn_all, Nat.sub_diag. simpl.
  apply firstn_all2. lia.
Qed.

Lemma absent_app (c : code_unit) (a b : jsstring) :
  ~ In c (a ++ b) <-> ~ In c a /\ ~ In c b.
Proof. rewrite in_app_iff. tauto. Qed.

Ltac divlia := zify; Z.to_euclidean_division_equations; lia.

(** ** UTF-8 *)

Lemma between_true (lo b hi : N) :
  (lo <= b <= hi)%N -> UTF8.between lo b hi = true.
Proof.
  intros H. unfold UTF8.between. apply andb_true_iff.
  split; apply N.leb_le; lia.
Qed.

Lemma between_false (lo b hi : N) :
  (b < lo \/ hi < b)%N -> UTF8.between lo b hi = false.
Proof.
  intros H. unfold UTF8.between. apply andb_false_iff.
  destruct H; [left|right]; apply N.leb_gt; lia.
Qed.

Lemma between_spec (lo b hi : N) :
  UTF8.between lo b hi = true <-> (lo <= b <= hi)%N.
Proof.
  unfold UTF8.between. rewrite andb_true_iff, !N.leb_le. tauto.
Qed.

Lemma decode_one (c : code_unit) (r : bytes) :
  (c < 128)%N -> UTF8.decode (c :: r) = c :: UTF8.decode r.
Proof.
  intros H. cbn [UTF8.decode].
  replace (c <? 128)%N with true by (symmetry; apply N.ltb_lt; exact H).
  reflexivity.
Qed.

Lemma decode_two (c : code_unit) (r : bytes) :
  (128 <= c < 2048)%N ->
  UTF8.decode ((192 + c / 64) :: (128 + c mod 64) :: r)%N = c :: UTF8.decode r.
Proof.
  intros H. cbn [UTF8.decode].
  replace (192 + c / 64 <? 128)%N with false
    by (symmetry; apply N.ltb_ge; divlia).
  rewrite between_true by divlia.
  unfold UTF8.is_continuation. rewrite between_true by divlia.
  f_equal. divlia.
Qed.

Lemma decode_three (c : code_unit) (r : bytes) :
  (2048 <= c < 65536)%N ->
  UTF8.is_leading_surrogate c = false ->
  UTF8.is_trailing_surrogate c = false ->
  UTF8.decode ((224 + c / 4096) :: (128 + (c / 64) mod 64)
               :: (128 + c mod 64) :: r)%N = c :: UTF8.decode r.
Proof.
  intros H Hl Ht.
  assert (Hs : (c < 55296 \/ 57343 < c)%N).
  { unfold UTF8.is_leading_surrogate, UTF8.is_trailing_surrogate,
      UTF8.between in *.
    apply andb_false_iff in Hl, Ht.
    rewrite !N.leb_gt in Hl, Ht. lia. }
  cbn [UTF8.decode].
  replace (224 + c / 4096 <? 128)%N with false
    by (symmetry; apply N.ltb_ge; divlia).
  rewrite (between_false 194 _ 223) by divlia.
  rewrite (between_true 224 _ 239) by divlia.
  assert (H2 : UTF8.between (fst (UTF8.second_of_three (224 + c / 4096)%N))
                 (128 + (c / 64) mod 64)%N
                 (snd (UTF8.second_of_three (224 + c / 4096)%N)) = true).
  { unfold UTF8.second_of_three.
    destruct (N.eqb_spec (224 + c / 4096) 224) as [E|E];
      [cbn [fst snd]; apply between_true; divlia|].
    destruct (N.eqb_spec (224 + c / 4096) 237) as [E'|E'];
      cbn [fst snd]; apply between_true; divlia. }
  rewrite H2.
  unfold UTF8.is_continuation. rewrite between_true by divlia.
  f_equal. divlia.
Qed.

Lemma decode_four (c d : code_unit) (r : bytes) :
  UTF8.is_leading_surrogate c = true ->
  UTF8.is_trailing_surrogate d = true ->
  let cp := (65536 + (c - 55296) * 1024 + (d - 56320))%N in
  UTF8.decode ((240 + cp / 262144) :: (128 + (cp / 4096) mod 64)
               :: (128 + (cp / 64) mod 64) :: (128 + cp mod 64) :: r)%N
  = c :: d :: UTF8.decode r.
Proof.
  intros Hl Ht cp.
  apply between_spec in Hl, Ht.
  assert (Hcp : (65536 <= cp < 1114112)%N) by (unfold cp; lia).
  assert (Hc : (c = 55296 + (cp - 65536) / 1024)%N) by (unfold cp; divlia).
  assert (Hd : (d = 56320 + (cp - 65536) mod 1024)%N) by (unfold cp; divlia).
  clearbody cp.
  cbn [UTF8.decode].
  replace (240 + cp / 262144 <? 128)%N with false
    by (symmetry; apply N.ltb_ge; divlia).
  rewrite (between_false 194 _ 223) by divlia.
  rewrite (between_false 224 _ 239) by divlia.
  rewrite (between_true 240 _ 244) by divlia.
  assert (H2 : UTF8.between (fst (UTF8.second_of_four (240 + cp / 262144)%N))
                 (128 + (cp / 4096) mod 64)%N
                 (snd (UTF8.second_of_four (240 + cp / 262144)%N)) = true).
  { unfold UTF8.second_of_four.
    destruct (N.eqb_spec (240 + cp / 262144) 240) as [E|E];
      [cbn [fst snd]; apply between_true; divlia|].
    destruct (N.eqb_spec (240 + cp / 262144) 244) as [E'|E'];
      cbn [fst snd]; apply between_true; divlia. }
  rewrite H2.
  unfold UTF8.is_continuation. rewrite !between_true by divlia.
  replace ((((240 + cp / 262144 - 240) * 64 + (128 + (cp / 4096) mod 64 - 128))
            * 64 + (128 + (cp / 64) mod 64 - 128)) * 64
           + (128 + cp mod 64 - 128))%N with cp by divlia.
  unfold UTF8.surrogates. rewrite <- Hc, <- Hd. reflexivity.
Qed.

(** Decoding gives back a text of whole characters from its encoding. *)
Lemma decode_encode_length (n : nat) :
  forall s : jsstring,
  (length s < n)%nat ->
  UTF8.well_formed s = true -> UTF8.decode (UTF8.encode s) = s.
Proof.
  induction n as [|n IH]; intros s Hn Hs; [lia|].
  destruct s as [|c s']; [reflexivity|].
  cbn [UTF8.well_formed] in Hs. cbn [UTF8.encode].
  destruct (UTF8.is_leading_surrogate c) eqn:El.
  - destruct s' as [|d s'']; [discriminate|].
    apply andb_true_iff in Hs as [Ed Hs]. rewrite Ed.
    pose proof El as Hl. apply between_spec in Hl.
    replace (c <? 128)%N with false by (symmetry; apply N.ltb_ge; divlia).
    replace (c <? 2048)%N with false by (symmetry; apply N.ltb_ge; divlia).
    cbv zeta. rewrite decode_four by assumption.
    rewrite IH by (simpl in Hn; lia || assumption). reflexivity.
  - apply andb_true_iff in Hs as [Hs Hs'].
    apply andb_true_iff in Hs as [Et Hc].
    apply negb_true_iff in Et. apply N.ltb_lt in Hc. rewrite Et.
    assert (IH' : UTF8.decode (UTF8.encode s') = s')
      by (apply IH; [simpl in Hn; lia|assumption]).
    destruct (N.ltb_spec c 128) as [H1|H1];
      [rewrite decode_one, IH' by assumption; reflexivity|].
    destruct (N.ltb_spec c 2048) as [H2|H2];
      [rewrite decode_two, IH' by lia; reflexivity|].
    rewrite decode_three, IH' by (lia || assumption). reflexivity.
Qed.

Lemma decode_encode (s : jsstring) :
  UTF8.well_formed s = true -> UTF8.decode (UTF8.encode s) = s.
Proof. apply (decode_encode_length (S (length s))). lia. Qed.

(** A text of whole characters followed by more text: the encoding and the
    property of holding whole characters go by the parts. *)
Lemma whole_characters_app (n : nat) :
  forall a b : jsstring,
  (length a < n)%nat ->
  UTF8.well_formed a = true ->
  UTF8.encode (a ++ b) = UTF8.encode a ++ UTF8.encode b /\
  UTF8.well_formed (a ++ b) = UTF8.well_formed b.
Proof.
  induction n as [|n IH]; intros a b Hn Ha; [lia|].
  destruct a as [|c a']; [split; reflexivity|].
  cbn [UTF8.well_formed] in Ha. cbn [app UTF8.encode UTF8.well_formed].
  destruct (UTF8.is_leading_surrogate c) eqn:El.
  - destruct a' as [|d a'']; [discriminate|].
    apply andb_true_iff in Ha as [Ed Ha]. cbn [app]. rewrite Ed.
    destruct (IH a'' b) as [He Hw]; [simpl in Hn; lia|assumption|].
    rewrite He, Hw. cbv zeta.
    split; [|reflexivity].
    apply between_spec in El.
    replace (c <? 128)%N with false by (symmetry; apply N.ltb_ge; lia).
    replace (c <? 2048)%N with false by (symmetry; apply N.ltb_ge; lia).
    reflexivity.
  - apply andb_true_iff in Ha as [Ha Ha'].
    destruct (IH a' b) as [He Hw]; [simpl in Hn; lia|assumption|].
    rewrite He, Hw, Ha. split; [|reflexivity].
    destruct (c <? 128)%N; [reflexivity|].
    destruct (c <? 2048)%N; [reflexivity|].
    destruct (UTF8.is_trailing_surrogate c); reflexivity.
Qed.

Lemma encode_app (a b : jsstring) :
  UTF8.well_formed a = true ->
  UTF8.encode (a ++ b) = UTF8.encode a ++ UTF8.encode b.
Proof.
  intros Ha. apply (whole_characters_app (S (length a))); [lia|exact Ha].
Qed.

Lemma well_formed_app (a b : jsstring) :
  UTF8.well_formed a = true -> UTF8.well_formed b = true ->
  UTF8.well_formed (a ++ b) = true.
Proof.
  intros Ha Hb.
  destruct (whole_characters_app (S (length a)) a b) as [_ H];
    [lia|exact Ha|].
  rewrite H. exact Hb.
Qed.

Lemma well_formed_concat (pieces : list jsstring) :
  Forall (fun p => UTF8.well_formed p = true) pieces ->
  UTF8.well_formed (concat pieces) = true.
Proof.
  induction 1 as [|p pieces Hp _ IH]; simpl; [reflexivity|].
  apply well_formed_app; assumption.
Qed.

Lemma encode_concat (pieces : list jsstring) :
  Forall (fun p => UTF8.well_formed p = true) pieces ->
  UTF8.encode (concat pieces) = concat (map UTF8.encode pieces).
Proof.
  induction 1 as [|p pieces Hp _ IH]; simpl; [reflexivity|].
  rewrite encode_app, IH by assumption. reflexivity.
Qed.

(** A line feed keeps what stands before it and what stands behind it
    apart: the encoding of frames is the encodings of the frames, as the
    service sends them, one [connection.write] per frame. *)
Lemma encode_line (n : nat) :
  forall p rest : jsstring,
  (length p < n)%nat ->
  UTF8.encode (p ++ LF :: rest) = UTF8.encode p ++ LF :: UTF8.encode rest.
Proof.
  induction n as [|n IH]; intros p rest Hn; [lia|].
  destruct p as [|c p']; [reflexivity|].
  assert (IH' : UTF8.encode (p' ++ LF :: rest) =
                UTF8.encode p' ++ LF :: UTF8.encode rest)
    by (apply IH; simpl in Hn; lia).
  cbn [app UTF8.encode].
  destruct (c <? 128)%N; [rewrite IH'; reflexivity|].
  destruct (c <? 2048)%N; [rewrite IH'; reflexivity|].
  destruct (UTF8.is_leading_surrogate c).
  - destruct p' as [|d p'']; [reflexivity|].
    cbn [app].
    destruct (UTF8.is_trailing_surrogate d).
    + cbv zeta. rewrite IH by (simpl in Hn; lia). reflexivity.
    + change (d :: p'' ++ LF :: rest) with ((d :: p'') ++ LF :: rest).
      rewrite IH'. reflexivity.
  - destruct (UTF8.is_trailing_surrogate c); rewrite IH'; reflexivity.
Qed.

Lemma encode_frames (payloads : list jsstring) :
  UTF8.encode (frames payloads) =
  concat (map UTF8.encode (map frame payloads)).
Proof.
  induction payloads as [|p payloads IH]; [reflexivity|].
  unfold frames in *. cbn [map concat]. unfold frame at 1 3.
  rewrite <- app_assoc. cbn [app].
  rewrite (encode_line (S (length p))) by lia.
  rewrite (encode_line (S (length p)) p []) by lia.
  rewrite IH, <- app_assoc. reflexivity.
Qed.

Lemma decode_pieces (pieces : list jsstring) :
  Forall (fun p => UTF8.well_formed p = true) pieces ->
  map UTF8.decode (map UTF8.encode pieces) = pieces.
Proof.
  induction 1 as [|p pieces Hp _ IH]; simpl; [reflexivity|].
  rewrite decode_encode, IH by assumption. reflexivity.
Qed.

(** Chunks that each hold the encoding of whole characters: decoding them
    one by one gives the decoding of the stream. *)
Lemma decode_whole_characters (pieces : list jsstring) :
  Forall (fun p => UTF8.well_formed p = true) pieces ->
  UTF8.decode (concat (map UTF8.encode pieces)) =
  concat (map UTF8.decode (map UTF8.encode pieces)).
Proof.
  intros H. rewrite decode_pieces, <- encode_concat by assumption.
  apply decode_encode, well_formed_concat, H.
Qed.

(** ** The decoder *)
Section LDJClientProperties.

Context {W : Type}.
Variable JSON_parse : jsstring -> completion value.
Variable on_message : value -> W -> W * completion unit.

Abbreviation while_loop := (while_loop JSON_parse on_message).
Abbreviation ingest := (ingest JSON_parse on_message).
Abbreviation feed := (feed JSON_parse on_message).
Abbreviation handled := (handled on_message).
Abbreviation decodes := (decodes JSON_parse).
Abbreviation accepted := (accepted on_message).

Lemma ingest_loop (buffer : jsstring) (w : W) (data : jsstring) :
  ingest buffer w data = while_loop (buffer ++ data) w.
Proof. reflexivity. Qed.

(** One turn of the loop, as the source has it. *)
Lemma while_loop_step (buffer : jsstring) (w : W) :
    while_loop buffer w =
    let boundary := indexOf buffer LF in
    if Z.eqb boundary (-1) then mkOutcome buffer w [] Normal
    else
      let input := substring buffer 0 boundary in
      let buffer' := substring_from buffer (boundary + 1) in
      match JSON_parse input with
      | Throw e => mkOutcome buffer' w [] (Throw e)
      | Return v =>
          match on_message v w with
          | (w', Throw e) => mkOutcome buffer' w' [v] (Throw e)
          | (w', Return _) => emit_first v (while_loop buffer' w')
          end
      end.
  Proof.
    simp while_loop. unfold inspect. simp while_loop. unfold inspect.
    cbv zeta.
    remember (exist (fun b => (indexOf buffer LF =? -1) = b) _ eq_refl) as x eqn:Hx.
    clear Hx. destruct x as [[|] Hb]; simp while_loop; rewrite Hb; reflexivity.
  Qed.

  (** Without a line feed the loop is not entered. *)
Lemma while_loop_partial (buffer : jsstring) (w : W) :
    ~ In LF buffer -> while_loop buffer w = mkOutcome buffer w [] Normal.
  Proof.
    intros H. rewrite while_loop_step. cbv zeta.
    apply indexOf_absent in H. rewrite H. reflexivity.
  Qed.

  (** With a first frame in the buffer, one turn takes exactly that frame. *)
Lemma while_loop_frame (p rest : jsstring) (w : W) :
    ~ In LF p ->
    while_loop (p ++ LF :: rest) w =
    match JSON_parse p with
    | Throw e => mkOutcome rest w [] (Throw e)
    | Return v =>
        match on_message v w with
        | (w', Throw e) => mkOutcome rest w' [v] (Throw e)
        | (w', Return _) => emit_first v (while_loop rest w')
        end
    end.
  Proof.
    intros H. rewrite while_loop_step. cbv zeta.
    unfold indexOf. rewrite indexOf_from_first by assumption.
    rewrite Z.add_0_l.
    destruct (Z.eqb_spec (jslength p) (-1)) as [E|_];
      [unfold jslength in E; lia|].
    rewrite substring_payload, substring_from_rest. reflexivity.
  Qed.

Lemma frames_cons (p : jsstring) (payloads : list jsstring) (rest : jsstring) :
  frames (p :: payloads) ++ rest = p ++ LF :: frames payloads ++ rest.
Proof.
  unfold frames, frame. simpl. rewrite <- !app_assoc. reflexivity.
Qed.

(** The loop on a buffer of well-formed frames and a partial frame: every
    frame is emitted, in order, and the partial frame stays. *)
Lemma while_loop_frames (payloads : list jsstring) (values : list value)
      (partial : jsstring) (w : W) :
  Forall (fun p => ~ In LF p) payloads ->
  Forall2 decodes payloads values ->
  Forall accepted values ->
  ~ In LF partial ->
  while_loop (frames payloads ++ partial) w =
  mkOutcome partial (handled values w) values Normal.
Proof.
  intros Hlf Hdec. revert w Hlf.
  induction Hdec as [|p v payloads values Hp Hdec IH]; intros w Hlf Hacc Hpart.
  - simpl. apply while_loop_partial; assumption.
  - inversion Hlf as [|? ? Hp' Hlf']; subst.
    inversion Hacc as [|? ? Hv Hacc']; subst.
    rewrite frames_cons, while_loop_frame by assumption.
    rewrite Hp. specialize (Hv w).
    destruct (on_message v w) as [w' c] eqn:E. simpl in Hv. subst c.
    unfold Normal. rewrite IH by assumption.
    unfold emit_first, handled. simpl. rewrite E. reflexivity.
Qed.

(** The same, up to a frame that does not decode: the frames before it are
    emitted, the exception leaves the handler, and what follows the
    malformed frame stays in the buffer. *)
Lemma while_loop_malformed (payloads : list jsstring) (values : list value)
      (bad rest : jsstring) (e : exn) (w : W) :
  Forall (fun p => ~ In LF p) payloads ->
  Forall2 decodes payloads values ->
  Forall accepted values ->
  ~ In LF bad ->
  JSON_parse bad = Throw e ->
  while_loop (frames payloads ++ bad ++ LF :: rest) w =
  mkOutcome rest (handled values w) values (Throw e).
Proof.
  intros Hlf Hdec. revert w Hlf.
  induction Hdec as [|p v payloads values Hp Hdec IH];
    intros w Hlf Hacc Hbad Hthrow.
  - simpl. rewrite while_loop_frame by assumption. rewrite Hthrow. reflexivity.
  - inversion Hlf as [|? ? Hp' Hlf']; subst.
    inversion Hacc as [|? ? Hv Hacc']; subst.
    rewrite frames_cons, while_loop_frame by assumption.
    rewrite Hp. specialize (Hv w).
    destruct (on_message v w) as [w' c] eqn:E. simpl in Hv. subst c.
    unfold Normal. rewrite IH by assumption.
    unfold emit_first, handled. simpl. rewrite E. reflexivity.
Qed.

(** A stream of frames cut in two: the first part is some whole frames and
    the beginning of the next one. *)
Lemma frames_cut (payloads : list jsstring) (partial x y : jsstring) :
  Forall (fun p => ~ In LF p) payloads ->
  ~ In LF partial ->
  x ++ y = frames payloads ++ partial ->
  exists done todo r,
    payloads = done ++ todo /\
    x = frames done ++ r /\
    ~ In LF r /\
    r ++ y = frames todo ++ partial.
Proof.
  intros Hlf Hpart. revert x.
  induction Hlf as [|p payloads Hp Hlf IH]; intros x E.
  - simpl in E. exists [], [], x. simpl. repeat split; try assumption.
    subst partial. apply absent_app in Hpart. tauto.
  - rewrite frames_cons in E.
    apply app_eq_app in E as (l & [[-> E]|[E1 E2]]).
    + destruct l as [|c l].
      * simpl in E. exists [], (p :: payloads), p.
        rewrite frames_cons, app_nil_r, <- E. simpl. tauto.
      * injection E as <- E. symmetry in E.
        destruct (IH l E) as (done & todo & r & -> & -> & Hr & E').
        exists (p :: done), todo, r. rewrite frames_cons. tauto.
    + exists [], (p :: payloads), x. rewrite frames_cons. simpl.
      repeat split.
      * subst p. apply absent_app in Hp. tauto.
      * rewrite E1, E2, <- app_assoc. reflexivity.
Qed.

Lemma Forall2_app_l (A B : Type) (R : A -> B -> Prop)
      (l1 l2 : list A) (l : list B) :
  Forall2 R (l1 ++ l2) l ->
  exists m1 m2, l = m1 ++ m2 /\ Forall2 R l1 m1 /\ Forall2 R l2 m2.
Proof.
  intros H. apply Forall2_app_inv_l in H as (m1 & m2 & H1 & H2 & ->).
  exists m1, m2. auto.
Qed.

Lemma handled_app (vs1 vs2 : list value) (w : W) :
  handled (vs1 ++ vs2) w = handled vs2 (handled vs1 w).
Proof. apply fold_left_app. Qed.

(** One 'data' event on a stream of well-formed frames, from a buffer that
    holds a partial frame. *)
Lemma ingest_frames (buffer data partial : jsstring)
      (payloads : list jsstring) (values : list value) (w : W) :
  Forall (fun p => ~ In LF p) payloads ->
  Forall2 decodes payloads values ->
  Forall accepted values ->
  ~ In LF partial ->
  buffer ++ data = frames payloads ++ partial ->
  ingest buffer w data = mkOutcome partial (handled values w) values Normal.
Proof.
  intros Hlf Hdec Hacc Hpart E.
  rewrite ingest_loop, E. apply while_loop_frames; assumption.
Qed.

(** The 'data' events of a whole stream of well-formed frames, cut into
    chunks at will. *)
Lemma feed_frames (chunks : list jsstring) :
  forall (buffer partial : jsstring) (payloads : list jsstring)
         (values : list value) (w : W),
  Forall (fun p => ~ In LF p) payloads ->
  Forall2 decodes payloads values ->
  Forall accepted values ->
  ~ In LF buffer ->
  ~ In LF partial ->
  buffer ++ concat chunks = frames payloads ++ partial ->
  feed chunks buffer w = mkOutcome partial (handled values w) values Normal.
Proof.
  induction chunks as [|data chunks IH];
    intros buffer partial payloads values w Hlf Hdec Hacc Hbuf Hpart E.
  - simpl in E. rewrite app_nil_r in E. simpl.
    destruct payloads as [|p payloads].
    + inversion Hdec; subst. reflexivity.
    + exfalso. apply Hbuf. rewrite E, frames_cons.
      apply in_or_app. right. now left.
  - simpl in E. rewrite app_assoc in E.
    destruct (frames_cut payloads partial (buffer ++ data) (concat chunks)
                Hlf Hpart E) as (done & todo & r & -> & E1 & Hr & E2).
    apply Forall_app in Hlf as [Hlf1 Hlf2].
    apply Forall2_app_l in Hdec as (vs1 & vs2 & -> & Hdec1 & Hdec2).
    apply Forall_app in Hacc as [Hacc1 Hacc2].
    simpl. rewrite (ingest_frames buffer data r done vs1 w) by assumption.
    simpl. rewrite (IH r partial todo vs2) by assumption.
    simpl. rewrite handled_app. reflexivity.
Qed.

(** When the handler returns, no line feed is left in the buffer. *)
Lemma while_loop_drains (n : nat) :
  forall (buffer : jsstring) (w : W),
  (length buffer < n)%nat ->
  result (while_loop buffer w) = Normal ->
  ~ In LF (buffer_after (while_loop buffer w)).
Proof.
  induction n as [|n IH]; intros buffer w Hn; [lia|].
  destruct (in_dec N.eq_dec LF buffer) as [Hin|Hout].
  - apply first_occurrence in Hin as (p & rest & -> & Hp).
    rewrite while_loop_frame by assumption.
    destruct (JSON_parse p) as [v|e]; [|discriminate].
    destruct (on_message v w) as [w' [[]|e]]; [|discriminate].
    simpl. apply IH.
    rewrite length_app in Hn. simpl in Hn. lia.
  - rewrite while_loop_partial by assumption. intros _. exact Hout.
Qed.

(** On a stream that delivers strings, the 'data' events of any cutting of
    a stream of frames into chunks leave the handler in the same state and
    emit the same messages as a single 'data' event with the whole stream:
    the decoded payloads, in the order of the frames. *)
Lemma strings_of_frames (payloads : list jsstring)
      (values : list value) (chunks : list jsstring) (w : W) :
  Forall (fun p => ~ In LF p) payloads ->
  Forall2 decodes payloads values ->
  Forall accepted values ->
  concat chunks = frames payloads ->
  feed chunks initial_buffer w = feed [frames payloads] initial_buffer w /\
  emitted (feed chunks initial_buffer w) = values /\
  result (feed chunks initial_buffer w) = Normal.
Proof.
  intros Hlf Hdec Hacc E.
  assert (H : forall cs, concat cs = frames payloads ->
            feed cs initial_buffer w =
            mkOutcome [] (handled values w) values Normal).
  { intros cs Hcs.
    apply (feed_frames cs initial_buffer [] payloads values w);
      try assumption; try (intros []).
    unfold initial_buffer. simpl. rewrite app_nil_r. exact Hcs. }
  rewrite (H chunks E).
  rewrite (H [frames payloads]) by (simpl; apply app_nil_r).
  auto.
Qed.

(** C5. Decode buffer invariant: after a 'data' event whose handler
    returned, the buffer holds no line feed, so no complete frame: what is
    left is at most one partial frame. *)
Theorem buffer_holds_no_frame (buffer : jsstring) (w : W) (data : jsstring) :
  result (ingest buffer w data) = Normal ->
  indexOf (buffer_after (ingest buffer w data)) LF = -1.
Proof.
  intros H. apply indexOf_absent. rewrite ingest_loop in *.
  apply (while_loop_drains (S (length (buffer ++ data)))); [lia|exact H].
Qed.


(** A string with no line feed, appended to a buffer with none, emits
    nothing and stays in the buffer as it is. *)
Lemma partial_string_retained (buffer data : jsstring) (w : W) :
  ~ In LF buffer -> ~ In LF data ->
  ingest buffer w data = mkOutcome (buffer ++ data) w [] Normal.
Proof.
  intros Hb Hd. rewrite ingest_loop. apply while_loop_partial.
  apply absent_app. tauto.
Qed.

(** C10. No validation of the payload's shape: when the pending partial
    frame and the payload of the chunk together decode to a value, of
    whatever kind, the 'data' event of the payload and its line feed emits
    one message, that value as it is, and the handler completes the way the
    listeners complete on it. *)
Theorem parsed_value_emitted_unchanged (buffer payload : jsstring)
        (v : value) (w : W) :
  ~ In LF (buffer ++ payload) ->
  decodes (buffer ++ payload) v ->
  ingest buffer w (frame payload) =
  mkOutcome [] (fst (on_message v w)) [v] (snd (on_message v w)).
Proof.
  intros Hlf Hv. rewrite ingest_loop. unfold frame.
  rewrite app_assoc. simpl.
  rewrite while_loop_frame by assumption. rewrite Hv.
  destruct (on_message v w) as [w' [[]|e]]; [|reflexivity].
  rewrite while_loop_partial by (intros []). reflexivity.
Qed.

(** C2, amended. A frame that does not decode: the exception of
    [JSON.parse] leaves the handler of 'data'.  The frames before it have
    been emitted, nothing is emitted for the malformed frame, which is gone
    from the buffer, and what followed it stays in the buffer, not
    decoded. *)
Theorem malformed_frame_throws (buffer data bad rest : jsstring)
        (payloads : list jsstring) (values : list value) (e : exn) (w : W) :
  buffer ++ data = frames payloads ++ frame bad ++ rest ->
  Forall (fun p => ~ In LF p) payloads ->
  Forall2 decodes payloads values ->
  Forall accepted values ->
  ~ In LF bad ->
  JSON_parse bad = Throw e ->
  ingest buffer w data = mkOutcome rest (handled values w) values (Throw e).
Proof.
  intros E Hlf Hdec Hacc Hbad Hthrow.
  rewrite ingest_loop, E. unfold frame. rewrite <- app_assoc. simpl.
  apply while_loop_malformed; assumption.
Qed.

End LDJClientProperties.

(** C1.  Fragmentation over the client's socket.  The watcher service,
    watching the file whose name is an e with acute accent and then .txt,
    writes one frame.  Delivered in one Buffer, its bytes give the message
    of the service.  Cut behind byte 28, between the two bytes of the
    accented letter, or delivered one byte at a time, they give another
    message: each half of the letter is decoded on its own, to U+FFFD.  The
    source presents the buffering as the solution to split messages:
    whether ten messages come in on a single data event or only half of
    one does, they all precipitate message events (version8-test4, line
    77). *)
Theorem fragmentation_inside_character (stack : nat) :
  let filename := 233%N :: js ".txt" in
  let written :=
    WatcherService.written
      (WatcherService.run stringify_text filename []) in
  let wire := concat (map UTF8.encode written) in
  let garbled := 65533%N :: 65533%N :: js ".txt" in
  written =
    [js "{'type':'watching','file':'" ++ 233%N :: js ".txt'}" ++ [LF]] /\
  firstn 28 wire = js "{'type':'watching','file':'" ++ [195%N] /\
  skipn 28 wire = 169%N :: js ".txt'}" ++ [LF] /\
  Client.receive stack [wire] initial_buffer [] =
    mkOutcome []
      [Client.Log (js "Now watching: ") (Client.OfValue (VStr filename))]
      [watching_message filename] Normal /\
  Client.receive stack [firstn 28 wire; skipn 28 wire] initial_buffer [] =
    mkOutcome []
      [Client.Log (js "Now watching: ") (Client.OfValue (VStr garbled))]
      [watching_message garbled] Normal /\
  Client.receive stack (map (fun b => [b]) wire) initial_buffer [] =
    mkOutcome []
      [Client.Log (js "Now watching: ") (Client.OfValue (VStr garbled))]
      [watching_message garbled] Normal.
Proof. repeat split. Qed.

(** C7.  A partial frame over the client's socket.  The first 28 bytes of
    the same frame hold no line feed and end in the first byte of the
    accented letter.  Their 'data' event emits nothing, but what the buffer
    keeps is not these bytes: the unfinished letter has become U+FFFD.  The
    event of the remaining bytes then emits one message, which is not the
    decoding of the two parts put together. *)
Theorem partial_character_not_retained (stack : nat) :
  let payload := js "{'type':'watching','file':'" ++ 233%N :: js ".txt'}" in
  let wire := UTF8.encode (frame payload) in
  let chunk := firstn 28 wire in
  let remainder := skipn 28 wire in
  let o := Client.on_data stack initial_buffer [] chunk in
  indexOf chunk LF = -1 /\
  emitted o = [] /\
  result o = Normal /\
  buffer_after o = js "{'type':'watching','file':'" ++ [65533%N] /\
  UTF8.decode chunk ++ UTF8.decode remainder <>
    UTF8.decode (chunk ++ remainder) /\
  UTF8.decode (chunk ++ remainder) = frame payload /\
  JSON.parse payload = Return (watching_message (233%N :: js ".txt")) /\
  emitted (Client.on_data stack (buffer_after o) (world_after o) remainder) =
    [watching_message (65533%N :: 65533%N :: js ".txt")].
Proof. repeat split. discriminate. Qed.

(** A chunk that completes one frame and begins the next. *)
Lemma buffer_holds_no_frame_witness :
  indexOf
    (buffer_after
       (Client.ingest 1000%nat (js "{'type':'watching',") []
          (js "'file':'a.txt'}" ++ [LF] ++ js "{'type':'chan")))
    LF = -1.
Proof.
  apply (buffer_holds_no_frame JSON.parse (Client.on_message 1000%nat)).
  reflexivity.
Defined.


(** The payloads [null], [42] and the string x: each is emitted as it is;
    it is the client's listener that then throws. *)
Lemma parsed_value_emitted_unchanged_witness :
  Client.ingest 1000%nat initial_buffer [] (frame (js "null")) =
    mkOutcome [] [] [VNull] (Throw TypeError) /\
  Client.ingest 1000%nat initial_buffer [] (frame (js "42")) =
    mkOutcome [] [] [VNum 42]
      (Throw (Error (js "Unrecognized message type: ") VUndefined)) /\
  Client.ingest 1000%nat initial_buffer [] (frame (js "'x'")) =
    mkOutcome [] [] [VStr (js "x")]
      (Throw (Error (js "Unrecognized message type: ") VUndefined)).
Proof.
  split; [|split].
  - apply (parsed_value_emitted_unchanged JSON.parse (Client.on_message 1000%nat)
             initial_buffer (js "null") VNull []).
    + apply indexOf_absent; reflexivity.
    + reflexivity.
  - apply (parsed_value_emitted_unchanged JSON.parse (Client.on_message 1000%nat)
             initial_buffer (js "42") (VNum 42) []).
    + apply indexOf_absent; reflexivity.
    + reflexivity.
  - apply (parsed_value_emitted_unchanged JSON.parse (Client.on_message 1000%nat)
             initial_buffer (js "'x'") (VStr (js "x")) []).
    + apply indexOf_absent; reflexivity.
    + reflexivity.
Defined.

(** C2, the claim fails: the first frame lacks its closing brace, a
    well-formed frame follows it in the same chunk.  The handler throws the
    [SyntaxError]; nothing at all is emitted, neither an error event nor the
    message of the second frame, which stays in the buffer. *)
Lemma malformed_frame_aborts_decoding :
  Client.ingest 1000%nat initial_buffer []
    (js "{'type':'changed'" ++ [LF] ++
     js "{'type':'watching','file':'target.txt'}" ++ [LF]) =
  mkOutcome (js "{'type':'watching','file':'target.txt'}" ++ [LF]) [] []
            (Throw SyntaxError).
Proof. reflexivity. Qed.

(** A well-formed frame, a malformed one and a well-formed one. *)
Lemma malformed_frame_throws_witness :
  Client.ingest 1000%nat (js "{'type':'watching','fi") []
    (js "le':'a.txt'}" ++ [LF] ++ js "{'type':'changed'" ++ [LF] ++
     js "{'type':'changed','timestamp':1}" ++ [LF]) =
  mkOutcome (js "{'type':'changed','timestamp':1}" ++ [LF])
    [Client.Log (js "Now watching: ") (Client.OfValue (VStr (js "a.txt")))]
    [VObj [(js "type", VStr (js "watching")); (js "file", VStr (js "a.txt"))]]
    (Throw SyntaxError).
Proof.
  apply (malformed_frame_throws JSON.parse (Client.on_message 1000%nat) _ _
           (js "{'type':'changed'") _
           [js "{'type':'watching','file':'a.txt'}"]
           [VObj [(js "type", VStr (js "watching"));
                  (js "file", VStr (js "a.txt"))]]).
  - reflexivity.
  - repeat constructor; apply indexOf_absent; reflexivity.
  - repeat constructor; reflexivity.
  - repeat constructor; intros w; reflexivity.
  - apply indexOf_absent; reflexivity.
  - reflexivity.
Defined.

(** ** The client's listener *)

Lemma strict_equals_false (v : value) (text : jsstring) :
  v <> VStr text -> Client.strict_equals v text = false.
Proof.
  intros H. destruct v; try reflexivity. simpl.
  destruct (list_eq_dec N.eq_dec s text) as [->|_]; [congruence|reflexivity].
Qed.

(** C4, the claim fails: a message of type 'deleted' makes the listener
    throw; the exception leaves [emit] and the handler of 'data', and the
    frame behind it is not decoded. *)
Lemma unknown_type_is_fatal :
  Client.ingest 1000%nat initial_buffer []
    (frames [js "{'type':'deleted'}";
             js "{'type':'watching','file':'target.txt'}"]) =
  mkOutcome (frame (js "{'type':'watching','file':'target.txt'}")) []
    [VObj [(js "type", VStr (js "deleted"))]]
    (Throw (Error (js "Unrecognized message type: ") (VStr (js "deleted")))).
Proof. reflexivity. Qed.

(** A primitive is converted to a string, whatever the room on the
    stack. *)
Lemma ToString_primitive (room : nat) (v : value) :
  Client.primitive v -> Client.ToString room v = Normal.
Proof. destruct v; simpl; intros H; try reflexivity; destruct H. Qed.

(** An object made by [JSON.parse] is converted to a string exactly when
    it has no property of its own named [toString]; otherwise the
    conversion throws a [TypeError]. *)
Lemma ToString_object (room : nat) (props : list (jsstring * value)) :
  Client.ToString room (VObj props) =
  if Client.has_own_property props (js "toString") then Throw TypeError
  else Normal.
Proof. reflexivity. Qed.

(** An array with no room left on the stack. *)
Lemma ToString_exhausted (elems : list value) :
  Client.ToString 0 (VArr elems) = Throw RangeError.
Proof. reflexivity. Qed.

(** The listener on a message whose [type] is neither 'watching' nor
    'changed'. *)
Lemma listener_on_unknown_type (stack : nat) (message type : value)
      (out : Client.console) :
  Client.Get message (js "type") = Return type ->
  type <> VStr (js "watching") ->
  type <> VStr (js "changed") ->
  Client.on_message stack message out =
  (out,
   match Client.ToString stack type with
   | Throw e => Throw e
   | Return _ => Throw (Error (js "Unrecognized message type: ") type)
   end).
Proof.
  intros Hget Hw Hc. unfold Client.on_message. rewrite Hget.
  rewrite (strict_equals_false _ _ Hw), (strict_equals_false _ _ Hc).
  destruct (Client.ToString stack type); reflexivity.
Qed.

(** C4, amended.  For a decoded message whose [type] is neither 'watching'
    nor 'changed' the listener throws and prints nothing, and the exception
    leaves the handler of 'data' right after this message was emitted: what
    follows the frame stays in the buffer.  The exception is the [Error]
    naming the type when the type is converted to a string, as every
    primitive is and every object with no [toString] of its own; it is the
    exception of that conversion otherwise, a [TypeError] for an object with
    a [toString] of its own. *)
Theorem unknown_type_throws (stack : nat) (buffer data payload rest : jsstring)
        (message type : value) (out : Client.console) :
  buffer ++ data = frame payload ++ rest ->
  ~ In LF payload ->
  JSON.parse payload = Return message ->
  Client.Get message (js "type") = Return type ->
  type <> VStr (js "watching") ->
  type <> VStr (js "changed") ->
  exists e,
    Client.on_message stack message out = (out, Throw e) /\
    Client.ingest stack buffer out data =
      mkOutcome rest out [message] (Throw e) /\
    (Client.ToString stack type = Normal ->
     e = Error (js "Unrecognized message type: ") type) /\
    (forall x, Client.ToString stack type = Throw x -> e = x) /\
    (Client.primitive type -> e = Error (js "Unrecognized message type: ") type) /\
    (forall props, type = VObj props ->
       e = if Client.has_own_property props (js "toString") then TypeError
           else Error (js "Unrecognized message type: ") type).
Proof.
  intros E Hlf Hparse Hget Hw Hc.
  pose proof (listener_on_unknown_type stack message type out Hget Hw Hc)
    as Hm.
  assert (Hi : forall e, Client.on_message stack message out = (out, Throw e) ->
               Client.ingest stack buffer out data =
               mkOutcome rest out [message] (Throw e)).
  { intros e He. unfold Client.ingest. rewrite ingest_loop, E. unfold frame.
    rewrite <- app_assoc. simpl.
    rewrite while_loop_frame by assumption.
    rewrite Hparse, He. reflexivity. }
  destruct (Client.ToString stack type) as [[]|x] eqn:Et.
  - exists (Error (js "Unrecognized message type: ") type).
    split; [exact Hm|]. split; [exact (Hi _ Hm)|].
    split; [reflexivity|]. split; [discriminate|]. split; [reflexivity|].
    intros props ->. rewrite ToString_object in Et.
    destruct (Client.has_own_property props (js "toString"));
      [discriminate|reflexivity].
  - exists x.
    split; [exact Hm|]. split; [exact (Hi _ Hm)|].
    split; [discriminate|]. split; [intros y Hy; congruence|].
    split.
    + intros Hp. rewrite (ToString_primitive stack type Hp) in Et.
      discriminate.
    + intros props ->. rewrite ToString_object in Et.
      destruct (Client.has_own_property props (js "toString"));
        [congruence|discriminate].
Qed.

(** A message of type 'deleted', split over the buffer and the chunk; and a
    message whose type is an object with a [toString] of its own. *)
Lemma unknown_type_throws_witness :
  (Client.on_message 1000%nat (VObj [(js "type", VStr (js "deleted"))]) [] =
     ([], Throw (Error (js "Unrecognized message type: ")
                       (VStr (js "deleted")))) /\
   Client.ingest 1000%nat (js "{'type':") []
     (js "'deleted'}" ++ [LF] ++ js "{'ty") =
     mkOutcome (js "{'ty") [] [VObj [(js "type", VStr (js "deleted"))]]
       (Throw (Error (js "Unrecognized message type: ")
                     (VStr (js "deleted"))))) /\
  Client.ingest 1000%nat initial_buffer []
    (frame (js "{'type':{'toString':0}}")) =
    mkOutcome [] []
      [VObj [(js "type", VObj [(js "toString", VNum 0)])]]
      (Throw TypeError).
Proof.
  split.
  - destruct (unknown_type_throws 1000%nat (js "{'type':")
                (js "'deleted'}" ++ [LF] ++ js "{'ty")
                (js "{'type':'deleted'}") (js "{'ty")
                (VObj [(js "type", VStr (js "deleted"))])
                (VStr (js "deleted")) [])
      as (e & H1 & H2 & H3 & _).
    + reflexivity.
    + apply indexOf_absent; reflexivity.
    + reflexivity.
    + reflexivity.
    + discriminate.
    + discriminate.
    + rewrite (H3 eq_refl) in H1, H2. split; assumption.
  - destruct (unknown_type_throws 1000%nat initial_buffer
                (frame (js "{'type':{'toString':0}}"))
                (js "{'type':{'toString':0}}") []
                (VObj [(js "type", VObj [(js "toString", VNum 0)])])
                (VObj [(js "toString", VNum 0)]) [])
      as (e & _ & H2 & _ & H4 & _).
    + reflexivity.
    + apply indexOf_absent; reflexivity.
    + reflexivity.
    + reflexivity.
    + discriminate.
    + discriminate.
    + rewrite (H4 TypeError eq_refl) in H2. exact H2.
Defined.

(** C8, the claim fails: a 'changed' message without a timestamp decodes
    and is emitted as it is; the listener takes it. *)
Lemma missing_timestamp_is_emitted :
  JSON.parse (js "{'type':'changed','file':'target.txt'}") =
    Return (VObj [(js "type", VStr (js "changed"));
                  (js "file", VStr (js "target.txt"))]) /\
  Client.ingest 1000%nat initial_buffer []
    (frame (js "{'type':'changed','file':'target.txt'}")) =
  mkOutcome []
    [Client.Log (js "File changed: ") (Client.OfNewDate VUndefined)]
    [VObj [(js "type", VStr (js "changed"));
           (js "file", VStr (js "target.txt"))]]
    Normal.
Proof. split; reflexivity. Qed.

Lemma own_property_missing (props : list (jsstring * value)) (P : jsstring) :
  Client.has_own_property props P = false ->
  Client.own_property props P = VUndefined.
Proof.
  induction props as [|[k v] props IH]; simpl; [reflexivity|].
  destruct (list_eq_dec N.eq_dec k P); simpl; [discriminate|exact IH].
Qed.

(** The 'data' event of one frame whose payload decodes. *)
Lemma client_on_one_frame (stack : nat) (payload : jsstring) (v : value)
      (out : Client.console) :
  ~ In LF payload ->
  JSON.parse payload = Return v ->
  Client.ingest stack initial_buffer out (frame payload) =
  mkOutcome [] (fst (Client.on_message stack v out)) [v]
            (snd (Client.on_message stack v out)).
Proof.
  intros Hlf Hparse. unfold Client.ingest. rewrite ingest_loop.
  change (initial_buffer ++ frame payload) with (payload ++ LF :: []).
  rewrite while_loop_frame by assumption. rewrite Hparse.
  destruct (Client.on_message stack v out) as [w' [[]|e]]; [|reflexivity].
  rewrite while_loop_partial by (intros []). reflexivity.
Qed.

(** C8, amended.  A payload that is a JSON object is emitted with exactly
    the properties it has, whether or not the fields of its type are there:
    nothing is rejected and nothing is filled in.  The listener reads a
    missing [timestamp] of a 'changed' message, or a missing [file] of a
    'watching' message, as [undefined] and prints its line. *)
Theorem missing_fields_not_rejected (stack : nat) (payload : jsstring)
        (props : list (jsstring * value)) (out : Client.console) :
  ~ In LF payload ->
  JSON.parse payload = Return (VObj props) ->
  emitted (Client.ingest stack initial_buffer out (frame payload)) =
    [VObj props] /\
  (Client.own_property props (js "type") = VStr (js "changed") ->
   Client.has_own_property props (js "timestamp") = false ->
   Client.ingest stack initial_buffer out (frame payload) =
   mkOutcome []
     (out ++ [Client.Log (js "File changed: ") (Client.OfNewDate VUndefined)])
     [VObj props] Normal) /\
  (Client.own_property props (js "type") = VStr (js "watching") ->
   Client.has_own_property props (js "file") = false ->
   Client.ingest stack initial_buffer out (frame payload) =
   mkOutcome []
     (out ++ [Client.Log (js "Now watching: ") (Client.OfValue VUndefined)])
     [VObj props] Normal).
Proof.
  intros Hlf Hparse.
  rewrite (client_on_one_frame stack payload (VObj props) out Hlf Hparse).
  split; [reflexivity|].
  split; intros Htype Hmissing; apply own_property_missing in Hmissing;
    unfold Client.on_message, Client.new_Date; simpl;
    rewrite Htype; simpl; rewrite Hmissing; reflexivity.
Qed.

(** A 'changed' message with neither file nor timestamp. *)
Lemma missing_fields_not_rejected_witness :
  Client.ingest 1000%nat initial_buffer [] (frame (js "{'type':'changed'}")) =
  mkOutcome []
    [Client.Log (js "File changed: ") (Client.OfNewDate VUndefined)]
    [VObj [(js "type", VStr (js "changed"))]] Normal.
Proof.
  apply (missing_fields_not_rejected 1000%nat (js "{'type':'changed'}")
           [(js "type", VStr (js "changed"))] []).
  - apply indexOf_absent; reflexivity.
  - reflexivity.
  - reflexivity.
  - reflexivity.
Defined.

(** ** The test service and the client together *)

(** C3.  The chunks of the scenario give exactly one message, the one the
    scenario names.  The chunks the test service writes are not these: in
    line 14 the quotation mark that should close the object's text stands
    before the digits and after the brace, so the frame is no JSON text and
    the handler throws; no message is emitted.  The replacement of the
    service (lines 35 and 36) sends a 'changed' message with no file. *)
Theorem test_service_scenario (stack : nat) :
  Client.feed stack [js "{'type':'changed','file':'targ";
               js "et.txt','timestamp':1358175758495}" ++ [LF]]
              initial_buffer [] =
    mkOutcome []
      [Client.Log (js "File changed: ") (Client.OfNewDate (VNum 1358175758495))]
      [VObj [(js "type", VStr (js "changed"));
             (js "file", VStr (js "target.txt"));
             (js "timestamp", VNum 1358175758495)]]
      Normal /\
  TestService.written
    (TestService.run TestService.firstChunk TestService.secondChunk
       [TestService.TimerExpires]) =
    [js "{'type':'changed','file':'targ";
     js "et.txt','timestamp':'1358175758495}'" ++ [LF]] /\
  Client.feed stack
    (TestService.written
       (TestService.run TestService.firstChunk TestService.secondChunk
          [TestService.TimerExpires]))
    initial_buffer [] =
    mkOutcome [] [] [] (Throw SyntaxError) /\
  Client.feed stack
    (TestService.written
       (TestService.run TestService.firstChunk' TestService.secondChunk'
          [TestService.TimerExpires]))
    initial_buffer [] =
    mkOutcome []
      [Client.Log (js "File changed: ") (Client.OfNewDate (VNum 1450694370094))]
      [VObj [(js "type", VStr (js "changed"));
             (js "timestamp", VNum 1450694370094)]]
      Normal.
Proof. repeat split. Qed.

(** ** The resources of a session *)

Section WatcherSessions.

Variable JSON_stringify : value -> jsstring.
Variable filename : jsstring.

Abbreviation wstep := (WatcherService.step JSON_stringify filename).

(** Once closed, the watcher stays closed and the session writes nothing
    more. *)
Lemma closed_watcher_stays_closed (events : list WatcherService.event) :
  forall s : WatcherService.session,
  WatcherService.watcher s = WatcherService.Closed ->
  WatcherService.watcher (fold_left wstep events s) = WatcherService.Closed /\
  WatcherService.written (fold_left wstep events s) = WatcherService.written s.
Proof.
  induction events as [|e events IH]; intros s Hs; simpl; [auto|].
  destruct e as [now|]; simpl.
  - rewrite Hs. apply IH, Hs.
  - destruct (IH (WatcherService.on_close s) eq_refl) as [H1 H2]. auto.
Qed.

End WatcherSessions.

Section TestSessions.

Variable secondChunk : jsstring.

Abbreviation tstep := (TestService.step secondChunk).

(** A timer that is not pending never becomes pending again, and from then
    on nothing more is written. *)
Lemma settled_timer_stays_settled (events : list TestService.event) :
  forall s : TestService.session,
  TestService.timer s <> TestService.Pending ->
  TestService.timer (fold_left tstep events s) <> TestService.Pending /\
  TestService.written (fold_left tstep events s) = TestService.written s.
Proof.
  induction events as [|e events IH]; intros s Hs; simpl; [auto|].
  destruct e; simpl.
  - destruct (TestService.timer s) eqn:E; [congruence| |];
      apply IH; rewrite E; discriminate.
  - assert (H : TestService.timer (TestService.on_end s) <> TestService.Pending)
      by (simpl; destruct (TestService.timer s); discriminate).
    destruct (IH _ H) as [H1 H2]. auto.
Qed.

(** The timer is pending exactly as long as the session has neither run
    its callback, which ends the connection, nor seen 'end'. *)
Lemma ended_session_timer (events : list TestService.event) :
  forall s : TestService.session,
  (TestService.ended s = true -> TestService.timer s = TestService.Fired) ->
  TestService.ended (fold_left tstep events s) = true ->
  TestService.timer (fold_left tstep events s) = TestService.Fired.
Proof.
  induction events as [|e events IH]; intros s Hs; simpl; [exact Hs|].
  apply IH. destruct e; simpl.
  - destruct (TestService.timer s) eqn:E; simpl; auto.
    rewrite E. exact Hs.
  - intros H. rewrite (Hs H). reflexivity.
Qed.

End TestSessions.

Section Processes.

Context {E S : Type}.
Variable step : S -> E -> S.

(** As long as no 'error' is raised the process runs its listeners. *)
Lemma lifetime_dispatched (events : list E) (s : S) :
  fold_left (deliver step) (map Dispatched events) (Running s) =
  Running (fold_left step events s).
Proof.
  revert s. induction events as [|e events IH]; intros s; simpl;
    [reflexivity|apply IH].
Qed.

(** A process that has ended stays as it is. *)
Lemma terminated_stays (signals : list (signal E)) (s : S) :
  fold_left (deliver step) signals (Terminated s) = Terminated s.
Proof.
  induction signals as [|x signals IH]; simpl; [reflexivity|exact IH].
Qed.

(** What follows in a running process: some more events dispatched, and
    perhaps the end by an 'error'. *)
Lemma lifetime_running (signals : list (signal E)) :
  forall s : S,
  exists events,
    session_of (fold_left (deliver step) signals (Running s)) =
    fold_left step events s.
Proof.
  induction signals as [|x signals IH]; intros s; simpl.
  - exists []. reflexivity.
  - destruct x as [e|].
    + destruct (IH (step s e)) as (events & H).
      exists (e :: events). exact H.
    + exists []. rewrite terminated_stays. reflexivity.
Qed.

End Processes.

(** C9, the claim fails: a connection of the watcher service that is reset
    after a change, and a connection of the test service that is reset
    before its timer ran out.  The process ends with the watcher still
    watching and the timer still pending; neither [watcher.close()] nor
    [clearTimeout] was called, and a 'close' or 'end' behind the error
    finds no listener to run. *)
Lemma socket_error_releases_nothing :
  watcher_process stringify_text (js "target.txt")
    [Dispatched (WatcherService.Change 1358175758495); SocketError;
     Dispatched WatcherService.Close] =
    Terminated
      (WatcherService.mkSession
         [frame (js "{'type':'watching','file':'target.txt'}");
          frame (js "{'type':'changed','file':'target.txt','timestamp':1358175758495}")]
         WatcherService.Watching
         [WatcherService.SubscriberConnected]) /\
  test_process TestService.firstChunk TestService.secondChunk
    [SocketError; Dispatched TestService.End] =
    Terminated
      (TestService.mkSession [TestService.firstChunk] false
         TestService.Pending [TestService.SubscriberConnected]).
Proof. split; reflexivity. Qed.

(** C9, amended.  Release of a session's resources when its connection
    closes in an orderly way.  In the watcher service, once 'close' was
    dispatched the watcher is closed, whatever came before and whatever
    comes after, and nothing more is written to the connection.  In the
    test service, once 'end' was dispatched the timer is no longer pending,
    and nothing more is written; and a session that ended its connection
    itself did so from the timer's callback, so its timer has run and is
    not pending.  An 'error' of the connection that comes before these
    events ends the process at once, with the session as it was: nothing is
    released by the service. *)
Theorem resources_released_on_disconnect :
  (forall (JSON_stringify : value -> jsstring) (filename : jsstring)
          (before : list WatcherService.event)
          (after : list (signal WatcherService.event)),
     let p := watcher_process JSON_stringify filename
                (map Dispatched before ++
                 Dispatched WatcherService.Close :: after) in
     WatcherService.watcher (session_of p) = WatcherService.Closed /\
     WatcherService.written (session_of p) =
       WatcherService.written
         (WatcherService.run JSON_stringify filename before)) /\
  (forall (firstChunk secondChunk : jsstring)
          (before : list TestService.event)
          (after : list (signal TestService.event)),
     let p := test_process firstChunk secondChunk
                (map Dispatched before ++
                 Dispatched TestService.End :: after) in
     TestService.timer (session_of p) <> TestService.Pending /\
     TestService.written (session_of p) =
       TestService.written (TestService.run firstChunk secondChunk before)) /\
  (forall (firstChunk secondChunk : jsstring)
          (signals : list (signal TestService.event)),
     let p := test_process firstChunk secondChunk signals in
     TestService.ended (session_of p) = true ->
     TestService.timer (session_of p) = TestService.Fired) /\
  (forall (JSON_stringify : value -> jsstring) (filename : jsstring)
          (before : list WatcherService.event)
          (after : list (signal WatcherService.event)),
     watcher_process JSON_stringify filename
       (map Dispatched before ++ SocketError :: after) =
     Terminated (WatcherService.run JSON_stringify filename before)) /\
  (forall (firstChunk secondChunk : jsstring)
          (before : list TestService.event)
          (after : list (signal TestService.event)),
     test_process firstChunk secondChunk
       (map Dispatched before ++ SocketError :: after) =
     Terminated (TestService.run firstChunk secondChunk before)).
Proof.
  split; [|split; [|split; [|split]]].
  - intros stringify filename before after p. unfold p, watcher_process, lifetime.
    rewrite fold_left_app, lifetime_dispatched. simpl.
    destruct (lifetime_running (WatcherService.step stringify filename) after
                (WatcherService.on_close
                   (fold_left (WatcherService.step stringify filename) before
                      (WatcherService.on_connection stringify filename))))
      as (events & ->).
    apply (closed_watcher_stays_closed stringify filename events
             (WatcherService.on_close _) eq_refl).
  - intros c1 c2 before after p. unfold p, test_process, lifetime.
    rewrite fold_left_app, lifetime_dispatched. simpl.
    set (s := fold_left (TestService.step c2) before _).
    destruct (lifetime_running (TestService.step c2) after
                (TestService.on_end s)) as (events & ->).
    assert (H : TestService.timer (TestService.on_end s) <> TestService.Pending)
      by (simpl; destruct (TestService.timer s); discriminate).
    apply (settled_timer_stays_settled c2 events _ H).
  - intros c1 c2 signals p. unfold p, test_process, lifetime.
    destruct (lifetime_running (TestService.step c2) signals
                (TestService.on_connection c1)) as (events & ->).
    apply ended_session_timer. simpl. discriminate.
  - intros stringify filename before after.
    unfold watcher_process, lifetime.
    rewrite fold_left_app, lifetime_dispatched. simpl.
    apply terminated_stays.
  - intros c1 c2 before after. unfold test_process, lifetime.
    rewrite fold_left_app, lifetime_dispatched. simpl.
    apply terminated_stays.
Qed.

(** A session of the watcher service with a change, the 'close', and
    behind it a change and an 'error'; a session of the replacement test
    service whose peer ends the connection before the timer runs out. *)
Lemma resources_released_on_disconnect_witness :
  let p :=
    watcher_process stringify_text (js "target.txt")
      [Dispatched (WatcherService.Change 1358175758495);
       Dispatched WatcherService.Close;
       Dispatched (WatcherService.Change 1450694370094);
       SocketError] in
  let q :=
    test_process TestService.firstChunk' TestService.secondChunk'
      [Dispatched TestService.End; Dispatched TestService.TimerExpires] in
  (WatcherService.watcher (session_of p) = WatcherService.Closed /\
   WatcherService.written (session_of p) =
     WatcherService.written
       (WatcherService.run stringify_text (js "target.txt")
          [WatcherService.Change 1358175758495])) /\
  (TestService.timer (session_of q) <> TestService.Pending /\
   TestService.written (session_of q) =
     TestService.written
       (TestService.run TestService.firstChunk' TestService.secondChunk' [])).
Proof.
  intros p q. split.
  - apply (proj1 resources_released_on_disconnect stringify_text
             (js "target.txt") [WatcherService.Change 1358175758495]
             [Dispatched (WatcherService.Change 1450694370094); SocketError]).
  - apply (proj1 (proj2 resources_released_on_disconnect)
             TestService.firstChunk' TestService.secondChunk' []
             [Dispatched TestService.TimerExpires]).
Defined.

(** ** [JSON.parse] does not run out of fuel *)

Lemma skip_ws_length (s : jsstring) :
  (length (JSON.skip_ws s) <= length s)%nat.
Proof.
  induction s as [|c s IH]; simpl; [lia|].
  destruct (JSON.is_ws c); simpl; lia.
Qed.

Lemma starts_with_tl (c : code_unit) (s : jsstring) :
  JSON.starts_with c s = true -> length s = S (length (tl s)).
Proof. destruct s; simpl; [discriminate|reflexivity]. Qed.

Lemma string_body_length (s cs r : jsstring) :
  JSON.string_body s = Some (cs, r) -> (length r < length s)%nat.
Proof.
  remember (length s) as n eqn:Hn.
  assert (Hle : (length s <= n)%nat) by lia. clear Hn.
  revert s cs r Hle.
  induction n as [|n IH]; intros s cs r Hle; destruct s as [|c s1];
    simpl in *; try discriminate; try lia.
  destruct (N.eqb c 34).
  { intros H; injection H as _ <-. lia. }
  destruct (N.eqb c 92).
  - destruct s1 as [|e s2]; [discriminate|].
    destruct (N.eqb e 117).
    + destruct s2 as [|h1 [|h2 [|h3 [|h4 s3]]]]; try discriminate.
      destruct (JSON.hex4 h1 h2 h3 h4); [|discriminate].
      destruct (JSON.string_body s3) as [[cs' r']|] eqn:E; [|discriminate].
      intros H; injection H as _ <-.
      apply IH in E; simpl in *; lia.
    + destruct (JSON.escape e); [|discriminate].
      destruct (JSON.string_body s2) as [[cs' r']|] eqn:E; [|discriminate].
      intros H; injection H as _ <-.
      apply IH in E; simpl in *; lia.
  - destruct (N.ltb c 32); [discriminate|].
    destruct (JSON.string_body s1) as [[cs' r']|] eqn:E; [|discriminate].
    intros H; injection H as _ <-.
    apply IH in E; simpl in *; lia.
Qed.

Lemma take_digits_length (s : jsstring) :
  (length (snd (JSON.take_digits s)) <= length s)%nat.
Proof.
  induction s as [|c s IH]; simpl; [lia|].
  destruct (JSON.is_digit c); simpl; [|lia].
  destruct (JSON.take_digits s); simpl in *; lia.
Qed.

Lemma int_part_length (s ds r : jsstring) :
  JSON.int_part s = Some (ds, r) -> (length r < length s)%nat.
Proof.
  destruct s as [|c s]; simpl; [discriminate|].
  destruct (N.eqb c 48).
  { intros H; injection H as _ <-. simpl. lia. }
  destruct (JSON.is_digit c); [|discriminate].
  pose proof (take_digits_length s) as H.
  destruct (JSON.take_digits s) as [ds' r']. simpl in H.
  intros E; injection E as _ <-. lia.
Qed.

Lemma frac_part_length (s fs r : jsstring) :
  JSON.frac_part s = Some (fs, r) -> (length r <= length s)%nat.
Proof.
  unfold JSON.frac_part.
  destruct s as [|c s]; [intros H; injection H as _ <-; lia|].
  destruct (N.eqb c 46); [|intros H; injection H as _ <-; lia].
  pose proof (take_digits_length s) as H.
  destruct (JSON.take_digits s) as [[|d ds] r']; [discriminate|].
  simpl in H. intros E; injection E as _ <-. simpl. lia.
Qed.

Lemma exp_part_length (s es r : jsstring) :
  JSON.exp_part s = Some (es, r) -> (length r <= length s)%nat.
Proof.
  unfold JSON.exp_part.
  destruct s as [|c s]; [intros H; injection H as _ <-; lia|].
  destruct (_ || _); [|intros H; injection H as _ <-; lia].
  assert (H : forall sign s'', (length s'' <= length s)%nat ->
            match JSON.take_digits s'' with
            | ([], _) => None
            | (ds, r0) => Some (c :: sign ++ ds, r0)
            end = Some (es, r) -> (length r <= length (c :: s))%nat).
  { intros sign s'' Hs.
    pose proof (take_digits_length s'') as H.
    destruct (JSON.take_digits s'') as [[|d ds] r']; [discriminate|].
    simpl in H. intros E; injection E as _ <-. simpl. lia. }
  destruct s as [|d t]; [apply (H [] []); lia|].
  destruct (_ || _); [apply (H [d] t)|apply (H [] (d :: t))]; simpl; lia.
Qed.

Lemma number_length (s r : jsstring) (v : value) :
  JSON.number s = JSON.Parsed v r -> (length r < length s)%nat.
Proof.
  unfold JSON.number.
  assert (H : forall (minus : bool) s0, (length s0 <= length s)%nat ->
    match JSON.int_part s0 with
    | Some (ds, s1) =>
        match JSON.frac_part s1 with
        | Some (fs, s2) =>
            match JSON.exp_part s2 with
            | Some (es, s3) =>
                let lexeme := (if minus then [45%N] else []) ++ ds ++ fs ++ es in
                let n := JSON.digits_value ds in
                match fs, es with
                | [], [] =>
                    if (minus && (n =? 0)) || (2 ^ 53 <? n)
                    then JSON.Parsed (VNumLit lexeme) s3
                    else JSON.Parsed (VNum (if minus then - n else n)) s3
                | _, _ => JSON.Parsed (VNumLit lexeme) s3
                end
            | None => JSON.Malformed
            end
        | None => JSON.Malformed
        end
    | None => JSON.Malformed
    end = JSON.Parsed v r -> (length r < length s)%nat).
  { intros minus s0 Hs0.
    destruct (JSON.int_part s0) as [[ds s1]|] eqn:E1; [|discriminate].
    destruct (JSON.frac_part s1) as [[fs s2]|] eqn:E2; [|discriminate].
    destruct (JSON.exp_part s2) as [[es s3]|] eqn:E3; [|discriminate].
    apply int_part_length in E1. apply frac_part_length in E2.
    apply exp_part_length in E3. cbv zeta.
    destruct fs, es; try destruct (_ || _);
      intros H; injection H as _ <-; lia. }
  destruct s as [|c t]; [apply (H false []); lia|].
  destruct (N.eqb c 45); [apply (H true t)|apply (H false (c :: t))];
    simpl; lia.
Qed.

Lemma strip_prefix_length (p s r : jsstring) :
  JSON.strip_prefix p s = Some r -> length s = (length p + length r)%nat.
Proof.
  revert s; induction p as [|a p IH]; intros s; simpl.
  - intros H; injection H as <-. reflexivity.
  - destruct s as [|b s]; [discriminate|].
    destruct (N.eqb a b); [|discriminate].
    intros H. apply IH in H. simpl. lia.
Qed.

(** What a parser returns is shorter than what it was given. *)
Ltac unfold_parser :=
  cbn -[JSON.strip_prefix JSON.number JSON.string_body JSON.skip_ws
        JSON.starts_with js N.eqb Nat.mul Nat.add].

Lemma parser_progress (fuel : nat) :
  (forall s v r, JSON.value_ fuel s = JSON.Parsed v r ->
                 (length r < length s)%nat) /\
  (forall s vs r, JSON.elements fuel s = JSON.Parsed vs r ->
                  (length r < length s)%nat) /\
  (forall s kvs r, JSON.members fuel s = JSON.Parsed kvs r ->
                   (length r < length s)%nat).
Proof.
  induction fuel as [|fuel (IHv & IHe & IHm)];
    [repeat split; intros; discriminate|].
  split; [|split].
  - intros s v r. unfold_parser.
    pose proof (skip_ws_length s) as Hs.
    destruct (JSON.skip_ws s) as [|c t]; [discriminate|]. simpl in Hs.
    pose proof (skip_ws_length t) as Ht.
    destruct (N.eqb c 34).
    { destruct (JSON.string_body t) as [[cs r']|] eqn:E; [|discriminate].
      apply string_body_length in E.
      intros H; injection H as _ <-. lia. }
    destruct (N.eqb c 91).
    { destruct (JSON.starts_with 93%N (JSON.skip_ws t)) eqn:E.
      - apply starts_with_tl in E. intros H; injection H as _ <-. lia.
      - destruct (JSON.elements fuel t) as [vs r'| |] eqn:E';
          try discriminate.
        apply IHe in E'. intros H; injection H as _ <-. lia. }
    destruct (N.eqb c 123).
    { destruct (JSON.starts_with 125%N (JSON.skip_ws t)) eqn:E.
      - apply starts_with_tl in E. intros H; injection H as _ <-. lia.
      - destruct (JSON.members fuel t) as [kvs r'| |] eqn:E';
          try discriminate.
        apply IHm in E'. intros H; injection H as _ <-. lia. }
    destruct (_ || _).
    { intros H. apply number_length in H. simpl in H. lia. }
    destruct (JSON.strip_prefix (js "null") (c :: t)) eqn:E1.
    { apply strip_prefix_length in E1. simpl in E1.
      intros H; injection H as _ <-. lia. }
    destruct (JSON.strip_prefix (js "true") (c :: t)) eqn:E2.
    { apply strip_prefix_length in E2. simpl in E2.
      intros H; injection H as _ <-. lia. }
    destruct (JSON.strip_prefix (js "false") (c :: t)) eqn:E3;
      [|discriminate].
    apply strip_prefix_length in E3. simpl in E3.
    intros H; injection H as _ <-. lia.
  - intros s vs r. unfold_parser.
    destruct (JSON.value_ fuel s) as [v r1| |] eqn:E; try discriminate.
    apply IHv in E.
    pose proof (skip_ws_length r1) as H1.
    destruct (JSON.skip_ws r1) as [|c r2]; [discriminate|]. simpl in H1.
    destruct (N.eqb c 44).
    { destruct (JSON.elements fuel r2) as [vs' r3| |] eqn:E';
        try discriminate.
      apply IHe in E'. intros H; injection H as _ <-. lia. }
    destruct (N.eqb c 93); [|discriminate].
    intros H; injection H as _ <-. lia.
  - intros s kvs r. unfold_parser.
    pose proof (skip_ws_length s) as Hs.
    destruct (JSON.starts_with 34%N (JSON.skip_ws s)) eqn:E0; [|discriminate].
    apply starts_with_tl in E0.
    destruct (JSON.string_body (tl (JSON.skip_ws s))) as [[k r1]|] eqn:E1;
      [|discriminate].
    apply string_body_length in E1.
    pose proof (skip_ws_length r1) as H1.
    destruct (JSON.starts_with 58%N (JSON.skip_ws r1)) eqn:E2; [|discriminate].
    apply starts_with_tl in E2.
    destruct (JSON.value_ fuel (tl (JSON.skip_ws r1))) as [v r3| |] eqn:E3;
      try discriminate.
    apply IHv in E3.
    pose proof (skip_ws_length r3) as H3.
    destruct (JSON.skip_ws r3) as [|c r4]; [discriminate|]. simpl in H3.
    destruct (N.eqb c 44).
    { destruct (JSON.members fuel r4) as [kvs' r5| |] eqn:E';
        try discriminate.
      apply IHm in E'. intros H; injection H as _ <-. lia. }
    destruct (N.eqb c 125); [|discriminate].
    intros H; injection H as _ <-. lia.
Qed.

(** With more fuel than twice the length of the text no parser runs out
    of it. *)
Lemma parser_fuel (fuel : nat) :
  (forall s, (2 * length s + 1 <= fuel)%nat ->
             JSON.value_ fuel s <> JSON.OutOfFuel) /\
  (forall s, (2 * length s + 2 <= fuel)%nat ->
             JSON.elements fuel s <> JSON.OutOfFuel) /\
  (forall s, (2 * length s + 2 <= fuel)%nat ->
             JSON.members fuel s <> JSON.OutOfFuel).
Proof.
  induction fuel as [|fuel (IHv & IHe & IHm)];
    [repeat split; intros; lia|].
  destruct (parser_progress fuel) as (Pv & Pe & Pm).
  split; [|split].
  - intros s Hf. unfold_parser.
    pose proof (skip_ws_length s) as Hs.
    destruct (JSON.skip_ws s) as [|c t]; [discriminate|]. simpl in Hs.
    destruct (N.eqb c 34).
    { destruct (JSON.string_body t) as [[cs r']|]; discriminate. }
    destruct (N.eqb c 91).
    { destruct (JSON.starts_with 93%N (JSON.skip_ws t)); [discriminate|].
      specialize (IHe t).
      destruct (JSON.elements fuel t); try discriminate.
      exfalso; apply IHe; [lia|reflexivity]. }
    destruct (N.eqb c 123).
    { destruct (JSON.starts_with 125%N (JSON.skip_ws t)); [discriminate|].
      specialize (IHm t).
      destruct (JSON.members fuel t); try discriminate.
      exfalso; apply IHm; [lia|reflexivity]. }
    destruct (_ || _).
    { unfold JSON.number.
      destruct (N.eqb c 45);
        destruct (JSON.int_part _) as [[? ?]|]; try discriminate;
        destruct (JSON.frac_part _) as [[fs ?]|]; try discriminate;
        destruct (JSON.exp_part _) as [[es ?]|]; try discriminate;
        cbv zeta; destruct fs, es; try destruct (_ || _); discriminate. }
    destruct (JSON.strip_prefix (js "null") (c :: t)); [discriminate|].
    destruct (JSON.strip_prefix (js "true") (c :: t)); [discriminate|].
    destruct (JSON.strip_prefix (js "false") (c :: t)); discriminate.
  - intros s Hf. unfold_parser.
    specialize (IHv s). specialize (Pv s).
    destruct (JSON.value_ fuel s) as [v r1| |]; try discriminate;
      [|exfalso; apply IHv; [lia|reflexivity]].
    specialize (Pv v r1 eq_refl).
    pose proof (skip_ws_length r1) as H1.
    destruct (JSON.skip_ws r1) as [|c r2]; [discriminate|]. simpl in H1.
    destruct (N.eqb c 44).
    { specialize (IHe r2).
      destruct (JSON.elements fuel r2); try discriminate.
      exfalso; apply IHe; [lia|reflexivity]. }
    destruct (N.eqb c 93); discriminate.
  - intros s Hf. unfold_parser.
    pose proof (skip_ws_length s) as Hs.
    destruct (JSON.starts_with 34%N (JSON.skip_ws s)) eqn:E0; [|discriminate].
    apply starts_with_tl in E0.
    destruct (JSON.string_body (tl (JSON.skip_ws s))) as [[k r1]|] eqn:E1;
      [|discriminate].
    apply string_body_length in E1.
    pose proof (skip_ws_length r1) as H1.
    destruct (JSON.starts_with 58%N (JSON.skip_ws r1)) eqn:E2; [|discriminate].
    apply starts_with_tl in E2.
    specialize (IHv (tl (JSON.skip_ws r1))).
    specialize (Pv (tl (JSON.skip_ws r1))).
    destruct (JSON.value_ fuel (tl (JSON.skip_ws r1))) as [v r3| |];
      try discriminate; [|exfalso; apply IHv; [lia|reflexivity]].
    specialize (Pv v r3 eq_refl).
    pose proof (skip_ws_length r3) as H3.
    destruct (JSON.skip_ws r3) as [|c r4]; [discriminate|]. simpl in H3.
    destruct (N.eqb c 44).
    { specialize (IHm r4).
      destruct (JSON.members fuel r4); try discriminate.
      exfalso; apply IHm; [lia|reflexivity]. }
    destruct (N.eqb c 125); discriminate.
Qed.

(** [JSON.parse] is total: its [SyntaxError] is always that of a text that
    is not JSON, never a lack of fuel. *)
Lemma parse_fuel_suffices (text : jsstring) :
  JSON.value_ (2 * length text + 2) text <> JSON.OutOfFuel.
Proof. apply parser_fuel. lia. Qed.

(** * Further properties of the decoder *)
Section LDJClientChunking.

Context {W : Type}.
Variable JSON_parse : jsstring -> completion value.
Variable on_message : value -> W -> W * completion unit.

Abbreviation while_loop := (while_loop JSON_parse on_message).
Abbreviation ingest := (ingest JSON_parse on_message).
Abbreviation feed := (feed JSON_parse on_message).
Abbreviation on_data := (on_data JSON_parse on_message).
Abbreviation receive := (receive JSON_parse on_message).
Abbreviation handled := (handled on_message).
Abbreviation decodes := (decodes JSON_parse).

(** The loop on a buffer to which more text is appended: it does what it
    does on the buffer alone and, unless that ended in an exception, goes on
    with what was left and the appended text. *)
Lemma while_loop_app (n : nat) :
  forall (x y : jsstring) (w : W),
  (length x < n)%nat ->
  while_loop (x ++ y) w =
  let o := while_loop x w in
  match result o with
  | Throw e =>
      mkOutcome (buffer_after o ++ y) (world_after o) (emitted o) (Throw e)
  | Return _ =>
      let o' := while_loop (buffer_after o ++ y) (world_after o) in
      mkOutcome (buffer_after o') (world_after o')
                (emitted o ++ emitted o') (result o')
  end.
Proof.
  induction n as [|n IH]; intros x y w Hn; [lia|].
  destruct (in_dec N.eq_dec LF x) as [Hin|Hout].
  - apply first_occurrence in Hin as (p & rest & -> & Hp).
    rewrite <- app_assoc. simpl.
    rewrite !(while_loop_frame JSON_parse on_message) by assumption.
    destruct (JSON_parse p) as [v|e]; [|reflexivity].
    destruct (on_message v w) as [w' [[]|e]]; [|reflexivity].
    rewrite (IH rest y w')
      by (rewrite length_app in Hn; simpl in Hn; lia).
    cbv zeta. simpl.
    destruct (result (while_loop rest w')); reflexivity.
  - rewrite (while_loop_partial JSON_parse on_message x w Hout).
    cbv zeta. simpl.
    destruct (while_loop (x ++ y) w); reflexivity.
Qed.

Lemma feed_cons (data : jsstring) (chunks : list jsstring)
      (buffer : jsstring) (w : W) :
  feed (data :: chunks) buffer w =
  let o := ingest buffer w data in
  match result o with
  | Throw _ => o
  | Return _ =>
      let o' := feed chunks (buffer_after o) (world_after o) in
      mkOutcome (buffer_after o') (world_after o')
                (emitted o ++ emitted o') (result o')
  end.
Proof. reflexivity. Qed.

(** On a stream that delivers strings the chunking never matters to what
    is emitted: the 'data' events of the chunks, up to the first uncaught
    exception, do what one 'data' event with all the chunks put together
    does. *)
Lemma feed_as_one_event (chunks : list jsstring) :
  forall (buffer : jsstring) (w : W),
  ~ In LF buffer ->
  let o := feed chunks buffer w in
  let o1 := ingest buffer w (concat chunks) in
  emitted o = emitted o1 /\
  world_after o = world_after o1 /\
  result o = result o1 /\
  exists undelivered,
    buffer_after o1 = buffer_after o ++ undelivered /\
    (result o = Normal -> undelivered = []).
Proof.
  induction chunks as [|data chunks IH]; intros buffer w Hbuf; cbv zeta.
  - simpl. rewrite ingest_loop, app_nil_r.
    rewrite (while_loop_partial JSON_parse on_message buffer w Hbuf). simpl.
    repeat split. exists []. rewrite app_nil_r. auto.
  - simpl concat. rewrite feed_cons. cbv zeta.
    rewrite !ingest_loop, app_assoc.
    rewrite (while_loop_app (S (length (buffer ++ data)))
               (buffer ++ data) (concat chunks) w) by lia.
    cbv zeta.
    pose proof (while_loop_drains JSON_parse on_message
                  (S (length (buffer ++ data))) (buffer ++ data) w
                  (Nat.lt_succ_diag_r _)) as Hd.
    set (od := while_loop (buffer ++ data) w) in *.
    destruct (result od) as [[]|e] eqn:E.
    + destruct (IH _ (world_after od) (Hd eq_refl))
        as (He & Hw & Hr & u & Hb & Hu).
      rewrite ingest_loop in He, Hw, Hr, Hb. simpl.
      rewrite He, Hw, Hr. repeat split.
      exists u. split; [exact Hb|rewrite <- Hr; exact Hu].
    + simpl. rewrite E. repeat split.
      exists (concat chunks). split; [reflexivity|discriminate].
Qed.

Lemma receive_feed (chunks : list bytes) (buffer : jsstring) (w : W) :
  receive chunks buffer w = feed (map UTF8.decode chunks) buffer w.
Proof. reflexivity. Qed.

(** The events of a stream of Buffers, one after the other. *)
Lemma receive_cons (data : bytes) (chunks : list bytes)
      (buffer : jsstring) (w : W) :
  receive (data :: chunks) buffer w =
  let o := on_data buffer w data in
  match result o with
  | Throw _ => o
  | Return _ =>
      let o' := receive chunks (buffer_after o) (world_after o) in
      mkOutcome (buffer_after o') (world_after o')
                (emitted o ++ emitted o') (result o')
  end.
Proof. reflexivity. Qed.

Lemma on_data_ingest (buffer : jsstring) (w : W) (data : bytes) :
  on_data buffer w data = ingest buffer w (UTF8.decode data).
Proof. reflexivity. Qed.

(** Chunking and the decoding of Buffers.  Take any parser, any listener
    and any stream of bytes, well formed or not, cut into chunks in a way
    that does not change how the bytes decode: decoding the chunks one by
    one gives the decoding of the whole, as it does when every chunk holds
    whole characters only.  Then the 'data' events of the chunks, up to the
    first uncaught exception, emit the same messages, leave the listeners in
    the same state and complete the same way as one 'data' event with all
    the bytes.  The buffers agree when the handler returned; after an
    exception the single event's buffer also holds the text of the chunks
    that were not delivered any more. *)
Theorem chunking_is_unobservable (chunks : list bytes) (buffer : jsstring)
        (w : W) :
  ~ In LF buffer ->
  UTF8.decode (concat chunks) = concat (map UTF8.decode chunks) ->
  let o := receive chunks buffer w in
  let o1 := on_data buffer w (concat chunks) in
  emitted o = emitted o1 /\
  world_after o = world_after o1 /\
  result o = result o1 /\
  exists undelivered,
    buffer_after o1 = buffer_after o ++ undelivered /\
    (result o = Normal -> undelivered = []).
Proof.
  intros Hbuf Hcut. cbv zeta.
  rewrite receive_feed, on_data_ingest, Hcut.
  apply (feed_as_one_event (map UTF8.decode chunks) buffer w Hbuf).
Qed.

Lemma handled_cons (v : value) (values : list value) (w : W) :
  handled (v :: values) w = handled values (fst (on_message v w)).
Proof. reflexivity. Qed.

Lemma while_loop_returns (n : nat) :
  forall (buffer : jsstring) (w : W),
  (length buffer < n)%nat ->
  let o := while_loop buffer w in
  result o = Normal ->
  exists payloads,
    buffer = frames payloads ++ buffer_after o /\
    Forall (fun p => ~ In LF p) payloads /\
    Forall2 decodes payloads (emitted o) /\
    ~ In LF (buffer_after o) /\
    world_after o = handled (emitted o) w.
Proof.
  induction n as [|n IH]; intros buffer w Hn; [lia|]. cbv zeta.
  destruct (in_dec N.eq_dec LF buffer) as [Hin|Hout].
  - apply first_occurrence in Hin as (p & rest & -> & Hp).
    rewrite (while_loop_frame JSON_parse on_message) by assumption.
    destruct (JSON_parse p) as [v|e] eqn:Ev; [|discriminate].
    destruct (on_message v w) as [w' [[]|e]] eqn:Em; [|discriminate].
    simpl. intros Hr.
    destruct (IH rest w') as (payloads & E & Hlf & Hdec & Hb & Hw);
      [rewrite length_app in Hn; simpl in Hn; lia|exact Hr|].
    exists (p :: payloads). rewrite frames_cons, <- E.
    repeat split; try assumption.
    + constructor; assumption.
    + constructor; assumption.
    + rewrite Hw. rewrite ?handled_cons. simpl. rewrite Em. reflexivity.
  - rewrite (while_loop_partial JSON_parse on_message buffer w Hout).
    intros _. exists []. simpl. repeat split; try assumption; constructor.
Qed.

(** What a returned handler has done.  The text taken from the buffer is a
    sequence of frames, none of whose payloads holds a line feed; there is
    one emitted message per frame, in order, each the decoding of its
    payload; the listeners took them in that order; and what is left in the
    buffer is the text behind the last line feed. *)
Theorem returned_handler_consumed_frames (buffer : jsstring) (w : W)
        (data : jsstring) :
  let o := ingest buffer w data in
  result o = Normal ->
  exists payloads,
    buffer ++ data = frames payloads ++ buffer_after o /\
    Forall (fun p => ~ In LF p) payloads /\
    Forall2 decodes payloads (emitted o) /\
    ~ In LF (buffer_after o) /\
    world_after o = handled (emitted o) w.
Proof.
  cbv zeta. rewrite ingest_loop.
  apply (while_loop_returns (S (length (buffer ++ data)))). lia.
Qed.

Lemma while_loop_throws (n : nat) :
  forall (buffer : jsstring) (w : W) (e : exn),
  (length buffer < n)%nat ->
  let o := while_loop buffer w in
  result o = Throw e ->
  exists payloads values culprit,
    buffer = frames payloads ++ frame culprit ++ buffer_after o /\
    Forall (fun p => ~ In LF p) payloads /\
    ~ In LF culprit /\
    Forall2 decodes payloads values /\
    ((JSON_parse culprit = Throw e /\
      emitted o = values /\
      world_after o = handled values w) \/
     (exists v,
        decodes culprit v /\
        emitted o = values ++ [v] /\
        on_message v (handled values w) = (world_after o, Throw e))).
Proof.
  induction n as [|n IH]; intros buffer w e Hn; [lia|]. cbv zeta.
  destruct (in_dec N.eq_dec LF buffer) as [Hin|Hout].
  - apply first_occurrence in Hin as (p & rest & -> & Hp).
    rewrite (while_loop_frame JSON_parse on_message) by assumption.
    destruct (JSON_parse p) as [v|e'] eqn:Ev.
    + destruct (on_message v w) as [w' [[]|e']] eqn:Em.
      * simpl. intros Hr.
        destruct (IH rest w' e)
          as (payloads & values & culprit & E & Hlf & Hc & Hdec & H);
          [rewrite length_app in Hn; simpl in Hn; lia|exact Hr|].
        exists (p :: payloads), (v :: values), culprit.
        rewrite frames_cons, <- E.
        repeat split; try assumption; try (constructor; assumption).
        rewrite ?handled_cons. simpl. rewrite Em. simpl.
        destruct H as [(H1 & H2 & H3)|(v' & H1 & H2 & H3)].
        -- left. rewrite H2. auto.
        -- right. exists v'. rewrite H2. auto.
      * simpl. intros Hr; injection Hr as ->.
        exists [], [], p. unfold frame. simpl. rewrite <- app_assoc.
        repeat split; try assumption;
          try apply Forall_nil; try apply Forall2_nil.
        right. exists v. auto.
    + simpl. intros Hr; injection Hr as ->.
      exists [], [], p. unfold frame. simpl. rewrite <- app_assoc.
      repeat split; try assumption;
        try apply Forall_nil; try apply Forall2_nil.
      left. auto.
  - rewrite (while_loop_partial JSON_parse on_message buffer w Hout).
    discriminate.
Qed.

(** What a handler left by an exception has done.  Some frames were decoded
    and emitted as usual; then came one frame, the culprit, which is gone
    from the buffer although the handler did not return: either its payload
    did not decode, nothing was emitted for it and the exception is that of
    [JSON.parse], or it was decoded and emitted and the exception is that
    of the listeners.  Everything behind the culprit is still in the
    buffer, not looked at. *)
Theorem thrown_handler_dropped_culprit (buffer : jsstring) (w : W)
        (data : jsstring) (e : exn) :
  let o := ingest buffer w data in
  result o = Throw e ->
  exists payloads values culprit,
    buffer ++ data = frames payloads ++ frame culprit ++ buffer_after o /\
    Forall (fun p => ~ In LF p) payloads /\
    ~ In LF culprit /\
    Forall2 decodes payloads values /\
    ((JSON_parse culprit = Throw e /\
      emitted o = values /\
      world_after o = handled values w) \/
     (exists v,
        decodes culprit v /\
        emitted o = values ++ [v] /\
        on_message v (handled values w) = (world_after o, Throw e))).
Proof.
  cbv zeta. rewrite ingest_loop.
  apply (while_loop_throws (S (length (buffer ++ data)))). lia.
Qed.

End LDJClientChunking.

(** * Further properties of the client's listener *)

Lemma strict_equals_true (v : value) (text : jsstring) :
  Client.strict_equals v text = true <-> v = VStr text.
Proof.
  split.
  - destruct v; simpl; try discriminate.
    destruct (list_eq_dec N.eq_dec s text) as [->|_];
      [reflexivity|discriminate].
  - intros ->. simpl.
    destruct (list_eq_dec N.eq_dec text text); [reflexivity|congruence].
Qed.

(** The messages the listener takes.  It returns exactly on an object whose
    own [type] is the string 'watching' and whose [file] is converted to a
    string, or whose own [type] is the string 'changed' and whose
    [timestamp] is converted by [new Date].  A field that is missing or a
    primitive is converted; an object with a [toString] of its own is not,
    so that the listener throws on it. *)
Theorem listener_accepts_iff (stack : nat) (message : value)
        (out : Client.console) :
  (snd (Client.on_message stack message out) = Normal <->
   exists props,
     message = VObj props /\
     ((Client.own_property props (js "type") = VStr (js "watching") /\
       Client.ToString stack (Client.own_property props (js "file")) = Normal)
      \/
      (Client.own_property props (js "type") = VStr (js "changed") /\
       Client.new_Date stack (Client.own_property props (js "timestamp"))
       = Normal))) /\
  (forall field,
     (Client.primitive field -> Client.ToString stack field = Normal) /\
     (forall props, field = VObj props ->
        (Client.ToString stack field = Normal <->
         Client.has_own_property props (js "toString") = false))).
Proof.
  split.
  - unfold Client.on_message. split.
    + destruct message; simpl; try discriminate;
        try (rewrite !strict_equals_false by discriminate; simpl; discriminate).
      destruct (Client.strict_equals _ (js "watching")) eqn:Ew.
      { apply strict_equals_true in Ew.
        destruct (Client.ToString stack _) as [[]|e] eqn:Ef; [|discriminate].
        intros _. exists props. auto. }
      destruct (Client.strict_equals _ (js "changed")) eqn:Ec.
      { apply strict_equals_true in Ec.
        destruct (Client.new_Date stack _) as [[]|e] eqn:Ef; [|discriminate].
        intros _. exists props. auto. }
      destruct (Client.ToString stack _); discriminate.
    + intros (props & -> & [[E Ef]|[E Ef]]); simpl; rewrite E; simpl;
        rewrite Ef; reflexivity.
  - intros field. split; [apply ToString_primitive|].
    intros props ->. rewrite ToString_object.
    destruct (Client.has_own_property props (js "toString"));
      split; intros H; try reflexivity; discriminate.
Qed.

(** A listener that throws has printed nothing.  On [null] and [undefined]
    it throws the [TypeError] of the property read; on every other message
    that is not made from a JSON object, be it a Boolean, a number, a
    string or an array, the [Error] naming the type it read, [undefined].
    On an object it throws that [Error] for its own [type], which then is
    neither 'watching' nor 'changed', or else the exception of the
    conversion of [file], [timestamp] or [type]. *)
Theorem listener_throws_cleanly (stack : nat) (message : value)
        (out : Client.console) (e : exn) :
  snd (Client.on_message stack message out) = Throw e ->
  fst (Client.on_message stack message out) = out /\
  (message = VNull \/ message = VUndefined -> e = TypeError) /\
  ((forall props, message <> VObj props) ->
   message <> VNull -> message <> VUndefined ->
   e = Error (js "Unrecognized message type: ") VUndefined) /\
  (forall props, message = VObj props ->
     let type := Client.own_property props (js "type") in
     (type = VStr (js "watching") /\
      Client.ToString stack (Client.own_property props (js "file")) = Throw e)
     \/
     (type = VStr (js "changed") /\
      Client.new_Date stack (Client.own_property props (js "timestamp"))
      = Throw e)
     \/
     (type <> VStr (js "watching") /\ type <> VStr (js "changed") /\
      (Client.ToString stack type = Throw e \/
       (Client.ToString stack type = Normal /\
        e = Error (js "Unrecognized message type: ") type)))).
Proof.
  intros H.
  assert (Hout : fst (Client.on_message stack message out) = out).
  { revert H. unfold Client.on_message.
    destruct (Client.Get message (js "type")) as [type|e']; [|reflexivity].
    destruct (Client.strict_equals type (js "watching")).
    { destruct (Client.Get message (js "file")) as [file|e']; [|reflexivity].
      destruct (Client.ToString stack file); [discriminate|reflexivity]. }
    destruct (Client.strict_equals type (js "changed")).
    { destruct (Client.Get message (js "timestamp")) as [ts|e'];
        [|reflexivity].
      destruct (Client.new_Date stack ts); [discriminate|reflexivity]. }
    destruct (Client.ToString stack type); reflexivity. }
  split; [exact Hout|]. split; [|split].
  - intros [->| ->]; simpl in H; congruence.
  - intros Hp Hn Hu.
    destruct message;
      try congruence; try (simpl in H; congruence);
      exfalso; apply (Hp props); reflexivity.
  - intros props -> type. revert H. unfold Client.on_message. simpl.
    fold type.
    destruct (Client.strict_equals type (js "watching")) eqn:Ew.
    { apply strict_equals_true in Ew.
      destruct (Client.ToString stack _) as [[]|x] eqn:Ef; [discriminate|].
      simpl. intros [= ->]. left. auto. }
    destruct (Client.strict_equals type (js "changed")) eqn:Ec.
    { apply strict_equals_true in Ec.
      destruct (Client.new_Date stack _) as [[]|x] eqn:Ef; [discriminate|].
      simpl. intros [= ->]. right. left. auto. }
    intros H. right. right.
    split; [intros E; rewrite E in Ew; discriminate|].
    split; [intros E; rewrite E in Ec; discriminate|].
    destruct (Client.ToString stack type) as [[]|x]; simpl in H;
      injection H as <-; auto.
Qed.

(** The listener prints at most one line, behind what is on the console,
    and exactly one when it returns. *)
Lemma listener_console (stack : nat) (message : value) (out : Client.console) :
  exists lines,
    fst (Client.on_message stack message out) = out ++ lines /\
    (length lines <= 1)%nat /\
    (snd (Client.on_message stack message out) = Normal ->
     length lines = 1%nat).
Proof.
  assert (Hnone : forall c : completion unit, c <> Normal ->
            exists lines, out = out ++ lines /\ (length lines <= 1)%nat /\
                          (c = Normal -> length lines = 1%nat)).
  { intros c Hc. exists []. rewrite app_nil_r. simpl.
    split; [reflexivity|]. split; [lia|]. intros E. contradiction. }
  unfold Client.on_message.
  destruct (Client.Get message (js "type")) as [type|e] eqn:Eg;
    [|apply Hnone; discriminate].
  destruct (Client.strict_equals type (js "watching")).
  { destruct (Client.Get message (js "file")) as [file|e];
      [|apply Hnone; discriminate].
    destruct (Client.ToString stack file); [|apply Hnone; discriminate].
    eexists [_]; simpl; auto. }
  destruct (Client.strict_equals type (js "changed")).
  { destruct (Client.Get message (js "timestamp")) as [ts|e];
      [|apply Hnone; discriminate].
    destruct (Client.new_Date stack ts); [|apply Hnone; discriminate].
    eexists [_]; simpl; auto. }
  destruct (Client.ToString stack type); apply Hnone; discriminate.
Qed.

Lemma client_loop_console (stack : nat) (n : nat) :
  forall (buffer : jsstring) (out : Client.console),
  (length buffer < n)%nat ->
  let o := while_loop JSON.parse (Client.on_message stack) buffer out in
  exists lines,
    world_after o = out ++ lines /\
    (length lines <= length (emitted o))%nat /\
    (result o = Normal -> length lines = length (emitted o)).
Proof.
  induction n as [|n IH]; intros buffer out Hn; [lia|]. cbv zeta.
  destruct (in_dec N.eq_dec LF buffer) as [Hin|Hout].
  - apply first_occurrence in Hin as (p & rest & -> & Hp).
    rewrite while_loop_frame by assumption.
    destruct (JSON.parse p) as [v|e];
      [|exists []; simpl; rewrite app_nil_r; repeat split;
        try lia; try discriminate].
    destruct (listener_console stack v out) as (l & El & Hl & Hl1).
    destruct (Client.on_message stack v out) as [out' [[]|e]]; simpl in *.
    + subst out'.
      destruct (IH rest (out ++ l)) as (lines & E & Hle & Heq);
        [rewrite length_app in Hn; simpl in Hn; lia|].
      exists (l ++ lines). rewrite E, app_assoc, length_app.
      specialize (Hl1 eq_refl). repeat split; try lia.
      intros Hr. specialize (Heq Hr). lia.
    + exists l. repeat split; try assumption; try lia; try discriminate.
  - rewrite while_loop_partial by assumption.
    exists []. simpl. rewrite app_nil_r. auto.
Qed.

(** The client as a whole never touches what is on the console already; a
    'data' event prints at most one line per message it emits, and exactly
    one per message when the handler returns. *)
Theorem client_prints_one_line_per_message (stack : nat) (buffer : jsstring)
        (out : Client.console) (data : jsstring) :
  let o := Client.ingest stack buffer out data in
  exists lines,
    world_after o = out ++ lines /\
    (length lines <= length (emitted o))%nat /\
    (result o = Normal -> length lines = length (emitted o)).
Proof.
  cbv zeta. unfold Client.ingest. rewrite ingest_loop.
  apply (client_loop_console stack (S (length (buffer ++ data)))). lia.
Qed.

(** * Further properties of the services *)

Section WatcherOutput.

Variable JSON_stringify : value -> jsstring.
Variable filename : jsstring.

Abbreviation wrun := (WatcherService.run JSON_stringify filename).
Abbreviation wstep' := (WatcherService.step JSON_stringify filename).

Lemma watching_session_output (events : list WatcherService.event) :
  forall s : WatcherService.session,
  WatcherService.watcher s = WatcherService.Watching ->
  WatcherService.written (fold_left wstep' events s) =
  WatcherService.written s ++
  map (fun now => frame (JSON_stringify (changed_message filename now)))
      (changes_before_close events).
Proof.
  induction events as [|e events IH]; intros s Hs; simpl.
  - symmetry. apply app_nil_r.
  - destruct e as [now|]; simpl.
    + rewrite Hs. rewrite IH by exact Hs. simpl.
      rewrite <- app_assoc. reflexivity.
    + rewrite app_nil_r.
      apply (closed_watcher_stays_closed JSON_stringify filename events
               (WatcherService.on_close s) eq_refl).
Qed.

(** Everything a session of the watcher service writes: the frame of the
    'watching' message, then one frame of a 'changed' message for each
    change reported before the connection's first 'close', in order and
    with the time of the report; nothing else, and nothing for a change
    reported after the 'close'. *)
Theorem watcher_session_writes (events : list WatcherService.event) :
  WatcherService.written (wrun events) =
  map (fun m => frame (JSON_stringify m))
      (watching_message filename ::
       map (changed_message filename) (changes_before_close events)).
Proof.
  unfold WatcherService.run.
  rewrite watching_session_output by reflexivity.
  simpl. rewrite map_map. reflexivity.
Qed.

Lemma session_output (events : list WatcherService.event) :
  WatcherService.written (wrun events) =
  map (fun m => frame (JSON_stringify m))
      (watching_message filename ::
       map (changed_message filename) (changes_before_close events)).
Proof.
  unfold WatcherService.run.
  rewrite watching_session_output by reflexivity.
  simpl. rewrite map_map. reflexivity.
Qed.

(** The watcher of a session is closed exactly when its connection has had
    a 'close'. *)
Theorem watcher_closed_iff (events : list WatcherService.event) :
  WatcherService.watcher (wrun events) = WatcherService.Closed <->
  In WatcherService.Close events.
Proof.
  unfold WatcherService.run.
  assert (H : forall s, WatcherService.watcher s = WatcherService.Watching ->
            (WatcherService.watcher (fold_left wstep' events s) =
               WatcherService.Closed <-> In WatcherService.Close events)).
  { induction events as [|e events IH]; intros s Hs; simpl.
    - rewrite Hs. split; [discriminate|tauto].
    - destruct e as [now|]; simpl.
      + rewrite Hs.
        rewrite (IH (WatcherService.on_change JSON_stringify filename now s) Hs).
        split; [auto|intros [H|H]; [discriminate|exact H]].
      + split; [auto|intros _].
        apply (closed_watcher_stays_closed JSON_stringify filename events
                 (WatcherService.on_close s) eq_refl). }
  apply H. reflexivity.
Qed.

End WatcherOutput.

(** Once the timer is not pending, whether the session ended its
    connection does not change any more. *)
Lemma settled_timer_keeps_ended (secondChunk : jsstring)
      (events : list TestService.event) :
  forall s : TestService.session,
  TestService.timer s <> TestService.Pending ->
  TestService.ended (fold_left (TestService.step secondChunk) events s) =
  TestService.ended s.
Proof.
  induction events as [|e events IH]; intros s Hs; simpl; [reflexivity|].
  destruct e; simpl.
  - destruct (TestService.timer s) eqn:E; [congruence| |];
      apply IH; rewrite E; discriminate.
  - rewrite IH; [reflexivity|].
    simpl. destruct (TestService.timer s); discriminate.
Qed.

(** Everything a session of the test service does is settled by its first
    event.  When the timer runs out first, the session writes the second
    chunk, once, and ends the connection; when the peer's 'end' comes
    first, the timer is cancelled and the second chunk is never written,
    whatever follows.  The timer is pending only as long as nothing has
    happened. *)
Theorem test_session_settled_by_first_event
        (firstChunk secondChunk : jsstring) (events : list TestService.event) :
  let s := TestService.run firstChunk secondChunk events in
  match events with
  | [] =>
      TestService.written s = [firstChunk] /\
      TestService.ended s = false /\
      TestService.timer s = TestService.Pending
  | TestService.TimerExpires :: _ =>
      TestService.written s = [firstChunk; secondChunk] /\
      TestService.ended s = true /\
      TestService.timer s = TestService.Fired
  | TestService.End :: _ =>
      TestService.written s = [firstChunk] /\
      TestService.ended s = false /\
      TestService.timer s = TestService.Cleared
  end.
Proof.
  cbv zeta. unfold TestService.run.
  destruct events as [|[|] events]; simpl; [auto| |].
  - set (s := TestService.on_timeout secondChunk
                (TestService.on_connection firstChunk)).
    assert (Hs : TestService.timer s <> TestService.Pending) by discriminate.
    destruct (settled_timer_stays_settled secondChunk events s Hs) as [_ Hw].
    rewrite Hw, (settled_timer_keeps_ended secondChunk events s Hs).
    repeat split.
    apply ended_session_timer; [simpl; auto|].
    rewrite (settled_timer_keeps_ended secondChunk events s Hs). reflexivity.
  - set (s := TestService.on_end (TestService.on_connection firstChunk)).
    assert (Hs : TestService.timer s <> TestService.Pending) by discriminate.
    destruct (settled_timer_stays_settled secondChunk events s Hs) as [_ Hw].
    rewrite Hw, (settled_timer_keeps_ended secondChunk events s Hs).
    repeat split.
    clear Hw. revert s Hs.
    assert (H : forall s, TestService.timer s = TestService.Cleared ->
              TestService.timer
                (fold_left (TestService.step secondChunk) events s) =
              TestService.Cleared).
    { induction events as [|e events IH]; intros s Hs; simpl; [exact Hs|].
      apply IH. destruct e; simpl; rewrite Hs; [exact Hs|reflexivity]. }
    intros s _. apply H. reflexivity.
Qed.

(** * The watcher service and the client together *)

Lemma listener_on_watching (stack : nat) (filename : jsstring) (out : Client.console) :
  Client.on_message stack (watching_message filename) out =
  (out ++ [Client.Log (js "Now watching: ") (Client.OfValue (VStr filename))],
   Normal).
Proof. reflexivity. Qed.

Lemma listener_on_changed (stack : nat) (filename : jsstring) (now : Z)
      (out : Client.console) :
  Client.on_message stack (changed_message filename now) out =
  (out ++ [Client.Log (js "File changed: ") (Client.OfNewDate (VNum now))],
   Normal).
Proof. reflexivity. Qed.

Lemma listener_handles_changes (stack : nat) (filename : jsstring) (changes : list Z) :
  forall out : Client.console,
  handled (Client.on_message stack) (map (changed_message filename) changes) out =
  out ++ map (fun now => Client.Log (js "File changed: ")
                           (Client.OfNewDate (VNum now))) changes.
Proof.
  induction changes as [|now changes IH]; intros out; simpl.
  - symmetry. apply app_nil_r.
  - change (handled (Client.on_message stack)
              (map (changed_message filename) changes)
              (fst (Client.on_message stack (changed_message filename now) out)) =
            out ++ Client.Log (js "File changed: ")
                     (Client.OfNewDate (VNum now)) ::
            map (fun now => Client.Log (js "File changed: ")
                              (Client.OfNewDate (VNum now))) changes).
    rewrite listener_on_changed, IH. simpl.
    rewrite <- app_assoc. reflexivity.
Qed.

(** The client on the frames of a 'watching' message and of 'changed'
    messages, cut into chunks at will. *)
Lemma client_reads_messages (stack : nat) (filename : jsstring) (changes : list Z)
      (texts chunks : list jsstring) (out : Client.console) :
  let messages :=
    watching_message filename :: map (changed_message filename) changes in
  Forall2 (fun t m => ~ In LF t /\ JSON.parse t = Return m) texts messages ->
  concat chunks = frames texts ->
  Client.feed stack chunks initial_buffer out =
  mkOutcome []
    (out ++
     Client.Log (js "Now watching: ") (Client.OfValue (VStr filename)) ::
     map (fun now => Client.Log (js "File changed: ")
                       (Client.OfNewDate (VNum now))) changes)
    messages Normal.
Proof.
  intros messages Hrt Hchunks. unfold Client.feed.
  rewrite (feed_frames JSON.parse (Client.on_message stack) chunks initial_buffer []
             texts messages out).
  - f_equal. unfold messages.
    change (handled (Client.on_message stack)
              (map (changed_message filename) changes)
              (fst (Client.on_message stack (watching_message filename) out)) =
            out ++ Client.Log (js "Now watching: ")
                     (Client.OfValue (VStr filename)) ::
            map (fun now => Client.Log (js "File changed: ")
                              (Client.OfNewDate (VNum now))) changes).
    rewrite listener_on_watching, listener_handles_changes. simpl.
    rewrite <- app_assoc. reflexivity.
  - clear Hchunks. induction Hrt as [|t m ts ms [Ht _] _ IH];
      constructor; assumption.
  - clear Hchunks. induction Hrt as [|t m ts ms [_ Hm] _ IH];
      constructor; assumption.
  - unfold messages. constructor.
    + intros w. rewrite listener_on_watching. reflexivity.
    + apply Forall_map, Forall_forall. intros now _ w.
      rewrite listener_on_changed. reflexivity.
  - intros [].
  - intros [].
  - unfold initial_buffer. simpl. rewrite app_nil_r. exact Hchunks.
Qed.

Lemma concat_singletons (A : Type) (s : list A) :
  concat (map (fun c => [c]) s) = s.
Proof. induction s as [|c s IH]; simpl; [|rewrite IH]; reflexivity. Qed.

Lemma Forall2_map_self (A B : Type) (f : A -> B) (P : B -> A -> Prop)
      (l : list A) :
  Forall (fun a => P (f a) a) l -> Forall2 P (map f l) l.
Proof. induction 1; simpl; constructor; assumption. Qed.

(** The same over a socket: the text cut into pieces of whole characters,
    each piece arriving as its UTF-8 encoding in a Buffer of its own. *)
Lemma client_receives_messages (stack : nat) (filename : jsstring)
      (changes : list Z) (texts pieces : list jsstring)
      (out : Client.console) :
  let messages :=
    watching_message filename :: map (changed_message filename) changes in
  Forall2 (fun t m => ~ In LF t /\ JSON.parse t = Return m) texts messages ->
  concat pieces = frames texts ->
  Forall (fun p => UTF8.well_formed p = true) pieces ->
  Client.receive stack (map UTF8.encode pieces) initial_buffer out =
  mkOutcome []
    (out ++
     Client.Log (js "Now watching: ") (Client.OfValue (VStr filename)) ::
     map (fun now => Client.Log (js "File changed: ")
                       (Client.OfNewDate (VNum now))) changes)
    messages Normal.
Proof.
  intros messages Hrt Hpieces Hwf. unfold Client.receive.
  rewrite receive_feed, decode_pieces by assumption.
  apply (client_reads_messages stack filename changes texts pieces out);
    assumption.
Qed.

(** From the watcher service to the client's console, over a socket.  Take
    any session of the watcher service and any cutting of the text it wrote
    into pieces of whole characters, each piece arriving as its UTF-8
    encoding in a 'data' event of its own: the chunks are a cutting of the
    bytes of the text in which no boundary falls inside a character.  If
    [JSON.stringify] writes each message of the session on one line and
    [JSON.parse] reads the message back from it, the client emits exactly
    the messages of the session, in order, prints the 'Now watching' line
    with the file name and then one 'File changed' line per change, with the
    time of that change, and its handler always returns, with an empty
    buffer at the end. *)
Theorem watcher_to_client (stack : nat) (JSON_stringify : value -> jsstring)
        (filename : jsstring) (events : list WatcherService.event)
        (pieces : list jsstring) (out : Client.console) :
  let changes := changes_before_close events in
  let messages :=
    watching_message filename :: map (changed_message filename) changes in
  let written :=
    WatcherService.written
      (WatcherService.run JSON_stringify filename events) in
  let chunks := map UTF8.encode pieces in
  Forall (fun m => ~ In LF (JSON_stringify m) /\
                   JSON.parse (JSON_stringify m) = Return m) messages ->
  concat pieces = concat written ->
  Forall (fun p => UTF8.well_formed p = true) pieces ->
  concat chunks = concat (map UTF8.encode written) /\
  Client.receive stack chunks initial_buffer out =
  mkOutcome []
    (out ++
     Client.Log (js "Now watching: ") (Client.OfValue (VStr filename)) ::
     map (fun now => Client.Log (js "File changed: ")
                       (Client.OfNewDate (VNum now))) changes)
    messages Normal.
Proof.
  intros changes messages written chunks Hrt Hpieces Hwf.
  unfold written in *. rewrite session_output in *.
  fold changes in Hpieces |- *. fold messages in Hpieces |- *.
  rewrite <- (map_map JSON_stringify frame) in *.
  split.
  { unfold chunks. rewrite <- encode_concat, Hpieces by exact Hwf.
    apply encode_frames. }
  apply (client_receives_messages stack filename changes
           (map JSON_stringify messages) pieces out);
    [|exact Hpieces|exact Hwf].
  apply Forall2_map_self. exact Hrt.
Qed.

(** * [JSON.stringify] and [JSON.parse] on the messages of the service *)

Lemma hex_digit_hex_char (d : N) :
  (d < 16)%N -> JSON.hex_digit (Serialize.hex_char d) = Some d.
Proof.
  intros Hd. unfold Serialize.hex_char, JSON.hex_digit, JSON.is_digit.
  destruct (N.ltb_spec d 10).
  - replace ((48 <=? 48 + d)%N) with true by (symmetry; apply N.leb_le; lia).
    replace ((48 + d <=? 57)%N) with true by (symmetry; apply N.leb_le; lia).
    cbn [andb]. f_equal. lia.
  - replace ((87 + d <=? 57)%N) with false by (symmetry; apply N.leb_gt; lia).
    rewrite andb_false_r.
    replace ((97 <=? 87 + d)%N) with true by (symmetry; apply N.leb_le; lia).
    replace ((87 + d <=? 102)%N) with true by (symmetry; apply N.leb_le; lia).
    cbn [andb]. f_equal. lia.
Qed.

Lemma hex4_unicode_escape (c : code_unit) :
  (c < 65536)%N ->
  JSON.hex4 (Serialize.hex_char (c / 4096))
            (Serialize.hex_char ((c / 256) mod 16))
            (Serialize.hex_char ((c / 16) mod 16))
            (Serialize.hex_char (c mod 16)) = Some c.
Proof.
  intros Hc. unfold JSON.hex4.
  rewrite !hex_digit_hex_char by divlia.
  f_equal. divlia.
Qed.

Lemma string_body_raw (c : code_unit) (t : jsstring) :
  (32 <= c)%N -> c <> 34%N -> c <> 92%N ->
  JSON.string_body (c :: t) = read_after c (JSON.string_body t).
Proof.
  intros H32 H34 H92. simpl.
  destruct (N.eqb_spec c 34); [contradiction|].
  destruct (N.eqb_spec c 92); [contradiction|].
  destruct (N.ltb_spec c 32); [lia|].
  destruct (JSON.string_body t) as [[cs r]|]; reflexivity.
Qed.

Lemma string_body_quote_unit (c : code_unit) (t : jsstring) :
  JSON.string_body (Serialize.quote_unit c ++ t) =
  read_after c (JSON.string_body t).
Proof.
  unfold Serialize.quote_unit.
  destruct (N.eqb_spec c 8) as [->|H8];
    [simpl; destruct (JSON.string_body t) as [[? ?]|]; reflexivity|].
  destruct (N.eqb_spec c 9) as [->|H9];
    [simpl; destruct (JSON.string_body t) as [[? ?]|]; reflexivity|].
  destruct (N.eqb_spec c 10) as [->|H10];
    [simpl; destruct (JSON.string_body t) as [[? ?]|]; reflexivity|].
  destruct (N.eqb_spec c 12) as [->|H12];
    [simpl; destruct (JSON.string_body t) as [[? ?]|]; reflexivity|].
  destruct (N.eqb_spec c 13) as [->|H13];
    [simpl; destruct (JSON.string_body t) as [[? ?]|]; reflexivity|].
  destruct (N.eqb_spec c 34) as [->|H34];
    [simpl; destruct (JSON.string_body t) as [[? ?]|]; reflexivity|].
  destruct (N.eqb_spec c 92) as [->|H92];
    [simpl; destruct (JSON.string_body t) as [[? ?]|]; reflexivity|].
  destruct (_ || _) eqn:E.
  - assert (Hc : (c < 65536)%N).
    { unfold Serialize.is_leading_surrogate, Serialize.is_trailing_surrogate
        in E.
      apply orb_true_iff in E as [E|E];
        [apply orb_true_iff in E as [E|E]|].
      - apply N.ltb_lt in E. lia.
      - apply andb_true_iff in E as [_ E]. apply N.leb_le in E. lia.
      - apply andb_true_iff in E as [_ E]. apply N.leb_le in E. lia. }
    unfold Serialize.unicode_escape.
    cbn -[JSON.hex4 N.div N.modulo Serialize.hex_char].
    rewrite hex4_unicode_escape by exact Hc.
    destruct (JSON.string_body t) as [[? ?]|]; reflexivity.
  - apply orb_false_iff in E as [E _]. apply orb_false_iff in E as [E _].
    apply N.ltb_ge in E.
    apply string_body_raw; assumption.
Qed.

(** [JSON.parse] reads a quoted string back, whatever its code units. *)
Lemma string_body_quote_units (n : nat) :
  forall s t : jsstring,
  (length s < n)%nat ->
  JSON.string_body (Serialize.quote_units s ++ 34%N :: t) = Some (s, t).
Proof.
  induction n as [|n IH]; intros s t Hn; [lia|].
  destruct s as [|c s']; [reflexivity|].
  cbn [Serialize.quote_units].
  assert (Hone : JSON.string_body
                   ((Serialize.quote_unit c ++ Serialize.quote_units s') ++
                    34%N :: t) = Some (c :: s', t)).
  { rewrite <- app_assoc, string_body_quote_unit.
    rewrite IH by (simpl in Hn; lia). reflexivity. }
  destruct (Serialize.is_leading_surrogate c) eqn:Ec; [|exact Hone].
  destruct s' as [|d s''];
    [cbn [Serialize.quote_units] in Hone; rewrite app_nil_r in Hone;
     exact Hone|].
  destruct (Serialize.is_trailing_surrogate d) eqn:Ed; [|exact Hone].
  unfold Serialize.is_leading_surrogate in Ec.
  unfold Serialize.is_trailing_surrogate in Ed.
  apply andb_true_iff in Ec as [Ec _]. apply N.leb_le in Ec.
  apply andb_true_iff in Ed as [Ed _]. apply N.leb_le in Ed.
  change ((c :: d :: Serialize.quote_units s'') ++ 34%N :: t)
    with (c :: d :: Serialize.quote_units s'' ++ 34%N :: t).
  rewrite !string_body_raw by lia.
  rewrite IH by (simpl in Hn; lia). reflexivity.
Qed.

Lemma quote_unit_one_line (c : code_unit) :
  ~ In LF (Serialize.quote_unit c).
Proof.
  unfold Serialize.quote_unit, LF.
  repeat match goal with
         | |- context [if N.eqb c ?k then _ else _] =>
             destruct (N.eqb_spec c k);
             [simpl; intuition discriminate|]
         end.
  destruct (_ || _).
  - assert (Hh : forall d, Serialize.hex_char d <> 10%N).
    { intros d. unfold Serialize.hex_char. destruct (N.ltb d 10); lia. }
    unfold Serialize.unicode_escape. cbn [In].
    intros [H|[H|[H|[H|[H|[H|[]]]]]]]; try discriminate;
      revert H; apply Hh.
  - simpl. intros [H|[]]. congruence.
Qed.

Lemma quote_units_one_line (n : nat) :
  forall s : jsstring,
  (length s < n)%nat -> ~ In LF (Serialize.quote_units s).
Proof.
  induction n as [|n IH]; intros s Hn; [lia|].
  destruct s as [|c s']; [intros []|].
  cbn [Serialize.quote_units].
  assert (Hone : ~ In LF (Serialize.quote_unit c ++ Serialize.quote_units s')).
  { apply absent_app. split; [apply quote_unit_one_line|].
    apply IH. simpl in Hn. lia. }
  destruct (Serialize.is_leading_surrogate c) eqn:Ec; [|exact Hone].
  destruct s' as [|d s'']; [apply quote_unit_one_line|].
  destruct (Serialize.is_trailing_surrogate d) eqn:Ed; [|exact Hone].
  unfold Serialize.is_leading_surrogate in Ec.
  unfold Serialize.is_trailing_surrogate in Ed.
  apply andb_true_iff in Ec as [Ec _]. apply N.leb_le in Ec.
  apply andb_true_iff in Ed as [Ed _]. apply N.leb_le in Ed.
  unfold LF. intros [H|[H|H]]; [lia|lia|].
  revert H. apply IH. simpl in Hn. lia.
Qed.

(** A quoted string is one line. *)
Lemma quote_one_line (s : jsstring) : ~ In LF (Serialize.quote s).
Proof.
  unfold Serialize.quote. intros [H|H]; [discriminate|].
  apply in_app_or in H as [H|[H|[]]]; [|discriminate].
  revert H. apply (quote_units_one_line (S (length s))). lia.
Qed.

Lemma digits_value_rev (l : jsstring) :
  JSON.digits_value (rev l) = reversed_value l.
Proof.
  unfold JSON.digits_value, reversed_value.
  rewrite <- fold_left_rev_right, rev_involutive. reflexivity.
Qed.

Lemma decimal_reversed_value (fuel : nat) :
  forall n : N,
  (n < 2 ^ N.of_nat fuel)%N ->
  reversed_value (Serialize.decimal_reversed fuel n) = Z.of_N n.
Proof.
  induction fuel as [|fuel IH]; intros n Hn.
  - simpl in *. assert (n = 0%N) by lia. subst. reflexivity.
  - rewrite Nat2N.inj_succ, N.pow_succ_r' in Hn.
    cbn [Serialize.decimal_reversed].
    destruct (N.ltb_spec n 10) as [Hlt|Hge].
    + unfold reversed_value. cbn [fold_right]. lia.
    + unfold reversed_value in *. cbn [fold_right].
      rewrite IH by divlia. divlia.
Qed.

Lemma decimal_reversed_digits (fuel : nat) :
  forall n : N,
  Forall (fun c => JSON.is_digit c = true) (Serialize.decimal_reversed fuel n).
Proof.
  assert (Hd : forall d, (d < 10)%N -> JSON.is_digit (48 + d)%N = true).
  { intros d Hd. unfold JSON.is_digit.
    apply andb_true_iff. split; apply N.leb_le; lia. }
  induction fuel as [|fuel IH]; intros n; cbn [Serialize.decimal_reversed];
    [constructor|].
  destruct (N.ltb_spec n 10) as [Hlt|Hge].
  - constructor; [apply Hd; assumption|constructor].
  - constructor; [apply Hd; divlia|apply IH].
Qed.

(** The first digit of a positive number is not 0. *)
Lemma decimal_reversed_last (fuel : nat) :
  forall n : N,
  (0 < n < 2 ^ N.of_nat fuel)%N ->
  exists l x,
    Serialize.decimal_reversed fuel n = l ++ [x] /\ x <> 48%N.
Proof.
  induction fuel as [|fuel IH]; intros n Hn.
  - simpl in Hn. lia.
  - rewrite Nat2N.inj_succ, N.pow_succ_r' in Hn.
    cbn [Serialize.decimal_reversed].
    destruct (N.ltb_spec n 10) as [Hlt|Hge].
    + exists [], (48 + n)%N. split; [reflexivity|lia].
    + destruct (IH (n / 10)%N) as (l & x & E & Hx); [divlia|].
      exists ((48 + n mod 10)%N :: l), x. rewrite E. auto.
Qed.

Lemma take_digits_app (ds r : jsstring) :
  Forall (fun c => JSON.is_digit c = true) ds ->
  match r with
  | [] => True
  | c :: _ => JSON.is_digit c = false
  end ->
  JSON.take_digits (ds ++ r) = (ds, r).
Proof.
  intros Hds Hr.
  induction Hds as [|d ds Hd _ IH]; cbn [app JSON.take_digits].
  - destruct r as [|c r]; [reflexivity|].
    cbn [JSON.take_digits]. rewrite Hr. reflexivity.
  - rewrite Hd, IH. reflexivity.
Qed.

Lemma decimal_fuel_enough (n : N) :
  (n < 2 ^ N.of_nat (S (N.to_nat (N.size n))))%N.
Proof.
  rewrite Nat2N.inj_succ, N.pow_succ_r', N2Nat.id.
  pose proof (N.size_gt n). lia.
Qed.

Lemma digits_value_decimal (n : N) :
  JSON.digits_value (Serialize.decimal n) = Z.of_N n.
Proof.
  unfold Serialize.decimal. rewrite digits_value_rev.
  apply decimal_reversed_value, decimal_fuel_enough.
Qed.

Lemma decimal_digits (n : N) :
  Forall (fun c => JSON.is_digit c = true) (Serialize.decimal n).
Proof.
  unfold Serialize.decimal. apply Forall_rev, decimal_reversed_digits.
Qed.

(** The integer part of a number text is the decimal text of a positive
    number, when what follows is not a digit. *)
Lemma int_part_decimal (p : positive) (r : jsstring) :
  match r with
  | [] => True
  | c :: _ => JSON.is_digit c = false
  end ->
  JSON.int_part (Serialize.decimal (N.pos p) ++ r) =
  Some (Serialize.decimal (N.pos p), r).
Proof.
  intros Hr.
  pose proof (decimal_digits (N.pos p)) as Hds.
  destruct (decimal_reversed_last (S (N.to_nat (N.size (N.pos p)))) (N.pos p))
    as (l & x & E & Hx);
    [split; [lia|apply decimal_fuel_enough]|].
  pose proof (take_digits_app _ r Hds Hr) as Ht.
  unfold Serialize.decimal in *. rewrite E in *.
  rewrite rev_app_distr in *. simpl rev in *. simpl app in *.
  unfold JSON.int_part.
  destruct (N.eqb_spec x 48); [contradiction|].
  inversion Hds as [|? ? Hxd _]; subst. rewrite Hxd.
  f_equal. exact Ht.
Qed.

Lemma number_after_sign (minus : bool) (p : positive) (c : code_unit)
      (r : jsstring) :
  (Z.pos p <= 2 ^ 53)%Z ->
  ends_number c ->
  match JSON.int_part (Serialize.decimal (N.pos p) ++ c :: r) with
  | Some (ds, s1) =>
      match JSON.frac_part s1 with
      | Some (fs, s2) =>
          match JSON.exp_part s2 with
          | Some (es, s3) =>
              let lexeme :=
                (if minus then [45%N] else []) ++ ds ++ fs ++ es in
              let n := JSON.digits_value ds in
              match fs, es with
              | [], [] =>
                  if (minus && (n =? 0)%Z) || (2 ^ 53 <? n)%Z
                  then JSON.Parsed (VNumLit lexeme) s3
                  else JSON.Parsed (VNum (if minus then - n else n)%Z) s3
              | _, _ => JSON.Parsed (VNumLit lexeme) s3
              end
          | None => JSON.Malformed
          end
      | None => JSON.Malformed
      end
  | None => JSON.Malformed
  end =
  JSON.Parsed (VNum (if minus then Z.neg p else Z.pos p)) (c :: r).
Proof.
  intros Hp (Hd & H46 & H101 & H69).
  rewrite int_part_decimal by exact Hd.
  unfold JSON.frac_part, JSON.exp_part.
  destruct (N.eqb_spec c 46); [contradiction|].
  destruct (N.eqb_spec c 101); [contradiction|].
  destruct (N.eqb_spec c 69); [contradiction|].
  cbn [orb]. cbv zeta. rewrite digits_value_decimal.
  change (Z.of_N (N.pos p)) with (Z.pos p).
  replace ((Z.pos p =? 0)%Z) with false by (symmetry; apply Z.eqb_neq; lia).
  rewrite andb_false_r.
  replace ((2 ^ 53 <? Z.pos p)%Z) with false
    by (symmetry; apply Z.ltb_ge; lia).
  cbn [orb]. destruct minus; reflexivity.
Qed.

Lemma decimal_head (p : positive) :
  exists c0 t,
    Serialize.decimal (N.pos p) = c0 :: t /\ JSON.is_digit c0 = true.
Proof.
  pose proof (decimal_digits (N.pos p)) as Hds.
  destruct (decimal_reversed_last (S (N.to_nat (N.size (N.pos p)))) (N.pos p))
    as (l & x & E & _);
    [split; [lia|apply decimal_fuel_enough]|].
  unfold Serialize.decimal in *. rewrite E in *.
  rewrite rev_app_distr in *. simpl in *.
  inversion Hds; subst. eauto.
Qed.

Lemma digit_bounds (c : code_unit) :
  JSON.is_digit c = true -> (48 <= c <= 57)%N.
Proof.
  unfold JSON.is_digit. intros H. apply andb_true_iff in H as [H1 H2].
  apply N.leb_le in H1. apply N.leb_le in H2. lia.
Qed.

(** [JSON.parse] reads the text of an integer Number back. *)
Lemma number_text (z : Z) (c : code_unit) (r : jsstring) :
  (Z.abs z <= 2 ^ 53)%Z ->
  ends_number c ->
  JSON.number (Serialize.number z ++ c :: r) = JSON.Parsed (VNum z) (c :: r).
Proof.
  intros Hz Hc. destruct z as [|p|p]; unfold Serialize.number.
  - destruct Hc as (Hd & H46 & H101 & H69).
    unfold JSON.number. cbn [app].
    change ((48 =? 45)%N) with false. cbv iota.
    unfold JSON.int_part. change ((48 =? 48)%N) with true. cbv iota.
    unfold JSON.frac_part, JSON.exp_part.
    destruct (N.eqb_spec c 46); [contradiction|].
    destruct (N.eqb_spec c 101); [contradiction|].
    destruct (N.eqb_spec c 69); [contradiction|].
    reflexivity.
  - destruct (decimal_head p) as (c0 & t & E & Hd0).
    apply digit_bounds in Hd0.
    unfold JSON.number.
    assert (E' : Serialize.decimal (N.pos p) ++ c :: r = c0 :: t ++ c :: r)
      by (rewrite E; reflexivity).
    rewrite E' at 1.
    destruct (N.eqb_spec c0 45); [lia|].
    apply (number_after_sign false p c r); [exact Hz|exact Hc].
  - unfold JSON.number. cbn [app].
    change ((45 =? 45)%N) with true. cbv iota.
    apply (number_after_sign true p c r); [exact Hz|exact Hc].
Qed.

Lemma skip_ws_here (c : code_unit) (t : jsstring) :
  JSON.is_ws c = false -> JSON.skip_ws (c :: t) = c :: t.
Proof. intros H. simpl. rewrite H. reflexivity. Qed.

(** A value that is a quoted string. *)
Lemma value_quote (fuel : nat) (s r : jsstring) :
  JSON.value_ (S fuel) (Serialize.quote s ++ r) = JSON.Parsed (VStr s) r.
Proof.
  unfold Serialize.quote. rewrite <- app_comm_cons, <- app_assoc.
  unfold_parser. rewrite skip_ws_here by reflexivity.
  change ((34 =? 34)%N) with true. cbv iota.
  change ([34%N] ++ r) with (34%N :: r).
  rewrite (string_body_quote_units (S (length s))) by lia.
  reflexivity.
Qed.

(** A value that is an integer Number. *)
Lemma value_number (fuel : nat) (z : Z) (c : code_unit) (r : jsstring) :
  (Z.abs z <= 2 ^ 53)%Z ->
  ends_number c ->
  JSON.value_ (S fuel) (Serialize.number z ++ c :: r) =
  JSON.Parsed (VNum z) (c :: r).
Proof.
  intros Hz Hc. rewrite <- (number_text z c r Hz Hc).
  assert (H : exists c0 t, Serialize.number z ++ c :: r = c0 :: t /\
                           (c0 = 45%N \/ (48 <= c0 <= 57)%N)).
  { destruct z as [|p|p]; unfold Serialize.number.
    - exists 48%N, (c :: r). split; [reflexivity|right; lia].
    - destruct (decimal_head p) as (c0 & t & E & Hd0).
      apply digit_bounds in Hd0. rewrite E.
      exists c0, (t ++ c :: r). auto.
    - exists 45%N, (Serialize.decimal (N.pos p) ++ c :: r). auto. }
  destruct H as (c0 & t & E & H0). rewrite E.
  unfold_parser.
  assert (Hws : JSON.is_ws c0 = false).
  { unfold JSON.is_ws.
    destruct (N.eqb_spec c0 32); [lia|].
    destruct (N.eqb_spec c0 9); [lia|].
    destruct (N.eqb_spec c0 10); [lia|].
    destruct (N.eqb_spec c0 13); [lia|]. reflexivity. }
  rewrite skip_ws_here by exact Hws.
  destruct (N.eqb_spec c0 34); [lia|].
  destruct (N.eqb_spec c0 91); [lia|].
  destruct (N.eqb_spec c0 123); [lia|].
  assert (Hnum : ((c0 =? 45)%N || JSON.is_digit c0) = true).
  { destruct H0 as [->|H0]; [reflexivity|].
    apply orb_true_iff. right. unfold JSON.is_digit.
    apply andb_true_iff. split; apply N.leb_le; lia. }
  rewrite Hnum. reflexivity.
Qed.

Lemma starts_with_here (c : code_unit) (t : jsstring) :
  JSON.starts_with c (c :: t) = true.
Proof. apply N.eqb_refl. Qed.

(** The last member of an object. *)
Lemma members_last (fuel : nat) (k t r : jsstring) (v : value) :
  JSON.value_ fuel (t ++ 125%N :: r) = JSON.Parsed v (125%N :: r) ->
  JSON.members (S fuel) (Serialize.quote k ++ 58%N :: t ++ 125%N :: r) =
  JSON.Parsed [(k, v)] r.
Proof.
  intros Hv. unfold Serialize.quote.
  rewrite <- app_comm_cons, <- app_assoc.
  change ([34%N] ++ 58%N :: t ++ 125%N :: r)
    with (34%N :: 58%N :: t ++ 125%N :: r).
  unfold_parser.
  rewrite skip_ws_here by reflexivity.
  rewrite starts_with_here. cbn [tl].
  rewrite (string_body_quote_units (S (length k))) by lia.
  rewrite skip_ws_here by reflexivity.
  rewrite starts_with_here. cbn [tl].
  rewrite Hv. rewrite skip_ws_here by reflexivity.
  reflexivity.
Qed.

(** A member of an object that is followed by another one. *)
Lemma members_next (fuel : nat) (k t rest : jsstring) (v : value) :
  JSON.value_ fuel (t ++ 44%N :: rest) = JSON.Parsed v (44%N :: rest) ->
  JSON.members (S fuel) (Serialize.quote k ++ 58%N :: t ++ 44%N :: rest) =
  match JSON.members fuel rest with
  | JSON.Parsed kvs r => JSON.Parsed ((k, v) :: kvs) r
  | JSON.Malformed => JSON.Malformed
  | JSON.OutOfFuel => JSON.OutOfFuel
  end.
Proof.
  intros Hv. unfold Serialize.quote.
  rewrite <- app_comm_cons, <- app_assoc.
  change ([34%N] ++ 58%N :: t ++ 44%N :: rest)
    with (34%N :: 58%N :: t ++ 44%N :: rest).
  unfold_parser.
  rewrite skip_ws_here by reflexivity.
  rewrite starts_with_here. cbn [tl].
  rewrite (string_body_quote_units (S (length k))) by lia.
  rewrite skip_ws_here by reflexivity.
  rewrite starts_with_here. cbn [tl].
  rewrite Hv. rewrite skip_ws_here by reflexivity.
  reflexivity.
Qed.

(** An object with at least one member. *)
Lemma value_object (fuel : nat) (k rest : jsstring) :
  JSON.value_ (S fuel) (123%N :: Serialize.quote k ++ rest) =
  match JSON.members fuel (Serialize.quote k ++ rest) with
  | JSON.Parsed kvs r => JSON.Parsed (JSON.object_of kvs) r
  | JSON.Malformed => JSON.Malformed
  | JSON.OutOfFuel => JSON.OutOfFuel
  end.
Proof.
  unfold_parser. rewrite skip_ws_here by reflexivity.
  change ((123 =? 34)%N) with false. change ((123 =? 91)%N) with false.
  change ((123 =? 123)%N) with true. cbv iota.
  rewrite skip_ws_here by reflexivity.
  reflexivity.
Qed.

Lemma not_array_index (k : jsstring) :
  forallb JSON.is_digit k = false -> Serialize.is_array_index k = false.
Proof.
  intros H. unfold Serialize.is_array_index.
  destruct k; [reflexivity|]. rewrite H. reflexivity.
Qed.

(** The text of a 'watching' message. *)
Lemma stringify_watching (filename : jsstring) :
  Serialize.stringify (watching_message filename) =
  Serialize.Text
    (123%N :: Serialize.quote (js "type") ++
     58%N :: Serialize.quote (js "watching") ++
     44%N :: Serialize.quote (js "file") ++
     58%N :: Serialize.quote filename ++ [125%N]).
Proof.
  unfold watching_message.
  cbn -[Serialize.quote js Serialize.is_array_index].
  rewrite !not_array_index by reflexivity.
  cbn [Serialize.join app].
  repeat (rewrite <- app_assoc || rewrite <- app_comm_cons). reflexivity.
Qed.

(** The text of a 'changed' message. *)
Lemma stringify_changed (filename : jsstring) (now : Z) :
  (Z.abs now <= 2 ^ 53)%Z ->
  Serialize.stringify (changed_message filename now) =
  Serialize.Text
    (123%N :: Serialize.quote (js "type") ++
     58%N :: Serialize.quote (js "changed") ++
     44%N :: Serialize.quote (js "file") ++
     58%N :: Serialize.quote filename ++
     44%N :: Serialize.quote (js "timestamp") ++
     58%N :: Serialize.number now ++ [125%N]).
Proof.
  intros Hnow. unfold changed_message.
  cbn -[Serialize.quote Serialize.number js Serialize.is_array_index
        Z.leb Z.pow Z.abs].
  rewrite !not_array_index by reflexivity.
  replace ((Z.abs now <=? 2 ^ 53)%Z) with true
    by (symmetry; apply Z.leb_le; exact Hnow).
  cbn [Serialize.join app].
  repeat (rewrite <- app_assoc || rewrite <- app_comm_cons). reflexivity.
Qed.

Lemma ends_number_brace : ends_number 125%N.
Proof. repeat split; discriminate. Qed.

Lemma parse_fuel (text : jsstring) (k : nat) :
  (k <= length text)%nat ->
  exists fuel, (2 * length text + 2 = k + fuel)%nat.
Proof. intros H. exists (2 * length text + 2 - k)%nat. lia. Qed.

(** [JSON.parse] reads the text of a 'watching' message back. *)
Lemma parse_watching_text (filename : jsstring) :
  JSON.parse
    (123%N :: Serialize.quote (js "type") ++
     58%N :: Serialize.quote (js "watching") ++
     44%N :: Serialize.quote (js "file") ++
     58%N :: Serialize.quote filename ++ [125%N]) =
  Return (watching_message filename).
Proof.
  unfold JSON.parse.
  match goal with
  | |- context [JSON.value_ _ ?text] =>
      destruct (parse_fuel text 4) as (fuel & ->);
        [unfold Serialize.quote;
         repeat (rewrite length_app || cbn [length app]); lia|]
  end.
  cbn [Nat.add].
  rewrite value_object.
  rewrite (members_next _ _ _ _ (VStr (js "watching")))
    by apply value_quote.
  change (Serialize.quote filename ++ [125%N])
    with (Serialize.quote filename ++ 125%N :: []).
  rewrite (members_last _ _ _ _ (VStr filename)) by apply value_quote.
  reflexivity.
Qed.

(** [JSON.parse] reads the text of a 'changed' message back. *)
Lemma parse_changed_text (filename : jsstring) (now : Z) :
  (Z.abs now <= 2 ^ 53)%Z ->
  JSON.parse
    (123%N :: Serialize.quote (js "type") ++
     58%N :: Serialize.quote (js "changed") ++
     44%N :: Serialize.quote (js "file") ++
     58%N :: Serialize.quote filename ++
     44%N :: Serialize.quote (js "timestamp") ++
     58%N :: Serialize.number now ++ [125%N]) =
  Return (changed_message filename now).
Proof.
  intros Hnow. unfold JSON.parse.
  match goal with
  | |- context [JSON.value_ _ ?text] =>
      destruct (parse_fuel text 5) as (fuel & ->);
        [unfold Serialize.quote;
         repeat (rewrite length_app || cbn [length app]); lia|]
  end.
  cbn [Nat.add].
  rewrite value_object.
  rewrite (members_next _ _ _ _ (VStr (js "changed")))
    by apply value_quote.
  rewrite (members_next _ _ _ _ (VStr filename)) by apply value_quote.
  change (Serialize.number now ++ [125%N])
    with (Serialize.number now ++ 125%N :: []).
  rewrite (members_last _ _ _ _ (VNum now))
    by (apply value_number; [exact Hnow|apply ends_number_brace]).
  reflexivity.
Qed.

Lemma number_one_line (z : Z) : ~ In LF (Serialize.number z).
Proof.
  assert (H : forall n, ~ In LF (Serialize.decimal n)).
  { intros n Hin. pose proof (decimal_digits n) as Hd.
    rewrite Forall_forall in Hd. apply Hd in Hin. discriminate. }
  destruct z as [|p|p]; simpl.
  - intros [E|[]]. discriminate.
  - apply H.
  - intros [E|Hin]; [discriminate|]. exact (H _ Hin).
Qed.

Ltac one_line :=
  repeat first
    [ apply quote_one_line
    | apply number_one_line
    | apply absent_app; split
    | match goal with
      | |- ~ In LF (_ :: ?l) =>
          let H := fresh in
          intros [H|H]; [discriminate H|revert H; change (~ In LF l)]
      | |- ~ In LF [] => intros []
      end ].

Lemma watching_round_trips (filename : jsstring) :
  round_trips (watching_message filename).
Proof.
  eexists. split; [apply stringify_watching|]. split.
  - one_line.
  - apply parse_watching_text.
Qed.

Lemma changed_round_trips (filename : jsstring) (now : Z) :
  (Z.abs now <= 2 ^ 53)%Z -> round_trips (changed_message filename now).
Proof.
  intros Hnow.
  eexists. split; [apply stringify_changed; exact Hnow|]. split.
  - one_line.
  - apply parse_changed_text. exact Hnow.
Qed.

(** The round trip of the service's messages.  Whatever the file name, be
    it with quotation marks, reverse solidi, control characters, line feeds
    or surrogates, and whatever the time, as long as its magnitude is at
    most 2^53, [JSON.stringify] writes the 'watching' and the 'changed'
    message as a text with no line feed in it, and [JSON.parse] reads from
    that text the very message. *)
Theorem watcher_messages_round_trip (filename : jsstring) (now : Z) :
  (Z.abs now <= 2 ^ 53)%Z ->
  round_trips (watching_message filename) /\
  round_trips (changed_message filename now).
Proof.
  intros Hnow. split.
  - apply watching_round_trips.
  - apply changed_round_trips. exact Hnow.
Qed.

(** The watcher service and the client, end to end over a socket, with the
    builtins as modelled.  Whatever the file name, for every session whose
    changes were reported at times of magnitude at most 2^53 and every
    cutting of the text the session wrote into pieces of whole characters,
    each piece arriving as its UTF-8 encoding in a 'data' event of its own,
    the client emits exactly the session's messages, prints the
    'Now watching' line and one 'File changed' line per change in order,
    and never throws. *)
Theorem watcher_service_end_to_end (stack : nat) (filename : jsstring)
        (events : list WatcherService.event) (pieces : list jsstring)
        (out : Client.console) :
  let changes := changes_before_close events in
  let written :=
    WatcherService.written
      (WatcherService.run stringify_text filename events) in
  let chunks := map UTF8.encode pieces in
  Forall (fun now => Z.abs now <= 2 ^ 53)%Z changes ->
  concat pieces = concat written ->
  Forall (fun p => UTF8.well_formed p = true) pieces ->
  concat chunks = concat (map UTF8.encode written) /\
  Client.receive stack chunks initial_buffer out =
  mkOutcome []
    (out ++
     Client.Log (js "Now watching: ") (Client.OfValue (VStr filename)) ::
     map (fun now => Client.Log (js "File changed: ")
                       (Client.OfNewDate (VNum now))) changes)
    (watching_message filename :: map (changed_message filename) changes)
    Normal.
Proof.
  intros changes written chunks Hchanges Hpieces Hwf.
  unfold written in *. rewrite session_output in *.
  fold changes in Hpieces |- *.
  rewrite <- (map_map stringify_text frame) in *.
  split.
  { unfold chunks. rewrite <- encode_concat, Hpieces by exact Hwf.
    apply encode_frames. }
  apply (client_receives_messages stack filename changes
           (map stringify_text
              (watching_message filename ::
               map (changed_message filename) changes)) pieces out);
    [|exact Hpieces|exact Hwf].
  assert (H : forall m, round_trips m ->
            ~ In LF (stringify_text m) /\
            JSON.parse (stringify_text m) = Return m).
  { intros m (t & E & Hlf & Hp). unfold stringify_text. rewrite E. auto. }
  apply Forall2_map_self. constructor.
  - apply H, watching_round_trips.
  - apply Forall_map. eapply Forall_impl; [|exact Hchanges].
    intros now Hnow. apply H, changed_round_trips, Hnow.
Qed.

(** * Instances *)

(** A pending partial frame and four Buffers.  The first ends behind the
    two bytes of an e with acute accent, the second completes that
    'watching' frame, the third completes a frame that lacks its closing
    brace, the fourth is never delivered. *)
Lemma chunking_is_unobservable_witness :
  let chunks :=
    [UTF8.encode (js "'watching','file':'" ++ [233%N]);
     UTF8.encode (js ".txt'}" ++ [LF] ++ js "{'ty");
     UTF8.encode (js "pe':'changed'" ++ [LF]);
     UTF8.encode (js "{'type':'changed','timestamp':1}" ++ [LF])] in
  let o := Client.receive 1000%nat chunks (js "{'type':") [] in
  let o1 := Client.on_data 1000%nat (js "{'type':") [] (concat chunks) in
  emitted o = emitted o1 /\
  world_after o = world_after o1 /\
  result o = result o1 /\
  exists undelivered,
    buffer_after o1 = buffer_after o ++ undelivered /\
    (result o = Normal -> undelivered = []).
Proof.
  intros chunks.
  apply (chunking_is_unobservable JSON.parse (Client.on_message 1000%nat)
           chunks (js "{'type':") []).
  - apply indexOf_absent. reflexivity.
  - reflexivity.
Defined.

(** A chunk that completes one frame and begins the next. *)
Lemma returned_handler_consumed_frames_witness :
  let o := Client.ingest 1000%nat (js "{'type':'watching',") []
             (js "'file':'a.txt'}" ++ [LF] ++ js "{'type':'chan") in
  exists payloads,
    js "{'type':'watching'," ++
    js "'file':'a.txt'}" ++ [LF] ++ js "{'type':'chan" =
      frames payloads ++ buffer_after o /\
    Forall (fun p => ~ In LF p) payloads /\
    Forall2 (decodes JSON.parse) payloads (emitted o) /\
    ~ In LF (buffer_after o) /\
    world_after o = handled (Client.on_message 1000%nat) (emitted o) [].
Proof.
  apply (returned_handler_consumed_frames JSON.parse (Client.on_message 1000%nat)
           (js "{'type':'watching',") []
           (js "'file':'a.txt'}" ++ [LF] ++ js "{'type':'chan")).
  reflexivity.
Defined.

(** A message of an unknown type, with a well-formed frame behind it. *)
Lemma thrown_handler_dropped_culprit_witness :
  let data := frames [js "{'type':'deleted'}";
                      js "{'type':'watching','file':'a'}"] in
  let e := Error (js "Unrecognized message type: ") (VStr (js "deleted")) in
  let o := Client.ingest 1000%nat initial_buffer [] data in
  exists payloads values culprit,
    initial_buffer ++ data =
      frames payloads ++ frame culprit ++ buffer_after o /\
    Forall (fun p => ~ In LF p) payloads /\
    ~ In LF culprit /\
    Forall2 (decodes JSON.parse) payloads values /\
    ((JSON.parse culprit = Throw e /\
      emitted o = values /\
      world_after o = handled (Client.on_message 1000%nat) values []) \/
     (exists v,
        decodes JSON.parse culprit v /\
        emitted o = values ++ [v] /\
        Client.on_message 1000%nat v (handled (Client.on_message 1000%nat) values []) =
          (world_after o, Throw e))).
Proof.
  intros data e.
  apply (thrown_handler_dropped_culprit JSON.parse (Client.on_message 1000%nat)
           initial_buffer [] data e).
  reflexivity.
Defined.

(** A 'watching' message whose file is an object with a [toString] of its
    own: the conversion throws a [TypeError], nothing is printed. *)
Lemma listener_throws_cleanly_witness :
  let file := VObj [(js "toString", VNum 0)] in
  let message := VObj [(js "type", VStr (js "watching")); (js "file", file)] in
  fst (Client.on_message 1000%nat message []) = [] /\
  Client.ToString 1000%nat file = Throw TypeError.
Proof.
  intros file message.
  destruct (listener_throws_cleanly 1000%nat message [] TypeError eq_refl)
    as (Hout & _ & _ & Hobj).
  split; [exact Hout|].
  destruct (Hobj _ eq_refl) as [[_ H]|[[H _]|[H _]]];
    [exact H|discriminate H|exfalso; apply H; reflexivity].
Defined.

(** A session with a change before the 'close' and one after it, for a
    file whose name begins with an e with acute accent; its output
    delivered one character at a time. *)
Lemma watcher_to_client_witness :
  let filename := 233%N :: js ".txt" in
  let events :=
    [WatcherService.Change 1358175758495; WatcherService.Close;
     WatcherService.Change 1450694370094] in
  let written :=
    WatcherService.written
      (WatcherService.run stringify_text filename events) in
  let chunks := map UTF8.encode (map (fun c => [c]) (concat written)) in
  concat chunks = concat (map UTF8.encode written) /\
  Client.receive 1000%nat chunks initial_buffer [] =
  mkOutcome []
    [Client.Log (js "Now watching: ") (Client.OfValue (VStr filename));
     Client.Log (js "File changed: ")
       (Client.OfNewDate (VNum 1358175758495))]
    [watching_message filename;
     changed_message filename 1358175758495]
    Normal.
Proof.
  intros filename events written chunks.
  apply (watcher_to_client 1000%nat stringify_text filename events
           (map (fun c => [c]) (concat written)) []).
  - repeat constructor; try (apply indexOf_absent); reflexivity.
  - apply concat_singletons.
  - apply Forall_forall. intros piece Hin.
    apply in_map_iff in Hin as (c & <- & Hc).
    revert c Hc. apply Forall_forall.
    repeat constructor.
Defined.

(** A file name with a quotation mark, a reverse solidus, a line feed and a
    surrogate pair. *)
Lemma watcher_messages_round_trip_witness :
  let filename := js "a'b\c" ++ [LF; 55357%N; 56832%N] in
  round_trips (watching_message filename) /\
  round_trips (changed_message filename 1358175758495).
Proof.
  intros filename.
  apply (watcher_messages_round_trip filename 1358175758495).
  apply Z.leb_le. reflexivity.
Defined.

(** The same file name, two changes, and the output in two chunks, cut
    behind the four bytes of the surrogate pair. *)
Lemma watcher_service_end_to_end_witness :
  let filename := js "a'b\c" ++ [LF; 55357%N; 56832%N] in
  let events :=
    [WatcherService.Change 1358175758495;
     WatcherService.Change 1450694370094; WatcherService.Close] in
  let written :=
    WatcherService.written
      (WatcherService.run stringify_text filename events) in
  let text := concat written in
  let chunks := map UTF8.encode [firstn 38 text; skipn 38 text] in
  concat chunks = concat (map UTF8.encode written) /\
  Client.receive 1000%nat chunks initial_buffer [] =
  mkOutcome []
    [Client.Log (js "Now watching: ") (Client.OfValue (VStr filename));
     Client.Log (js "File changed: ")
       (Client.OfNewDate (VNum 1358175758495));
     Client.Log (js "File changed: ")
       (Client.OfNewDate (VNum 1450694370094))]
    [watching_message filename;
     changed_message filename 1358175758495;
     changed_message filename 1450694370094]
    Normal.
Proof.
  intros filename events written text chunks.
  apply (watcher_service_end_to_end 1000%nat filename events
           [firstn 38 text; skipn 38 text] []).
  - repeat constructor; apply Z.leb_le; reflexivity.
  - change (firstn 38 text ++ skipn 38 text ++ [] = text).
    rewrite app_nil_r. apply firstn_skipn.
  - repeat constructor.
Defined.

(** * Blank lines *)

Lemma skip_ws_blank (p : jsstring) :
  Forall (fun c => JSON.is_ws c = true) p -> JSON.skip_ws p = [].
Proof.
  induction 1 as [|c p Hc _ IH]; simpl; [reflexivity|].
  rewrite Hc. exact IH.
Qed.

Lemma parse_blank (p : jsstring) :
  Forall (fun c => JSON.is_ws c = true) p -> JSON.parse p = Throw SyntaxError.
Proof.
  intros Hp. unfold JSON.parse.
  replace (2 * length p + 2)%nat with (S (2 * length p + 1)) by lia.
  unfold_parser. rewrite (skip_ws_blank p Hp). reflexivity.
Qed.

(** A blank line is fatal.  When the next line in the buffer is empty or
    holds nothing but spaces, tabs and carriage returns, the handler throws
    the [SyntaxError] of [JSON.parse]: nothing is emitted or printed, the
    line is gone from the buffer and what follows it stays there. *)
Theorem blank_line_throws (stack : nat) (buffer data blank rest : jsstring)
        (out : Client.console) :
  buffer ++ data = blank ++ LF :: rest ->
  Forall (fun c => c = 32%N \/ c = 9%N \/ c = 13%N) blank ->
  Client.ingest stack buffer out data = mkOutcome rest out [] (Throw SyntaxError).
Proof.
  intros E Hb. unfold Client.ingest. rewrite ingest_loop, E.
  rewrite while_loop_frame.
  - rewrite parse_blank; [reflexivity|].
    eapply Forall_impl; [|exact Hb].
    intros c [ -> | [ -> | -> ] ]; reflexivity.
  - intros Hin. rewrite Forall_forall in Hb.
    destruct (Hb _ Hin) as [H|[H|H]]; discriminate H.
Qed.

(** A line of a space and a carriage return in front of a frame. *)
Lemma blank_line_throws_witness :
  Client.ingest 1000%nat initial_buffer []
    (js " " ++ [13%N; LF] ++ js "{'type':'changed','timestamp':1}" ++ [LF]) =
  mkOutcome (js "{'type':'changed','timestamp':1}" ++ [LF]) [] []
    (Throw SyntaxError).
Proof.
  apply (blank_line_throws 1000%nat initial_buffer _ (js " " ++ [13%N])).
  - reflexivity.
  - constructor; [left; reflexivity|].
    constructor; [right; right; reflexivity|constructor].
Defined.
